(** * keepup-helm-scraper: image collection, rule matching and version
      normalisation

    A shallow embedding of [src/main.go] (package [main]) and of the
    [rules] package ([LoadRules]), with the properties of the
    specification stated over it; of the second entry point of the
    repository ([config/env.go]) it has the loop over the rules, to
    set beside the one of [src/main.go].

    Go values are modelled as follows.
    - [string] is Rocq's [string] (a sequence of bytes).
    - [map[string]T] is stdpp's [gmap string T].  A [range] over a map
      visits the entries in an order the language leaves open; every
      such loop of the source is a [RangeSite], and an oracle
      ([MapOrder]) gives the order of each one.
    - a call that can return an error, or panic, yields an [outcome].
    - the [regexp] package is an interface ([RegexpPkg]); [RE2] is an
      implementation of it for the fragment of the syntax that the
      patterns of the program and of the specification use. *)

From Stdlib Require Import String Ascii List Bool Arith Lia.
From stdpp Require Import base option list gmap strings.

(** ** Outcomes of a call *)

Inductive outcome (A : Type) : Type :=
| Ok (a : A)
| Error (e : string)
| Panic (p : string).

Arguments Ok {A} a.
Arguments Error {A} e.
Arguments Panic {A} p.

Definition outcome_bind {A B} (f : A → outcome B) (o : outcome A) : outcome B :=
  match o with
  | Ok a => f a
  | Error e => Error e
  | Panic p => Panic p
  end.

#[global] Instance outcome_ret : MRet outcome := λ A a, Ok a.
#[global] Instance outcome_mbind : MBind outcome := λ A B f o, outcome_bind f o.

(** [for _, x := range l { s = f x s }] over a slice, stopping at the
    first error or panic. *)
Fixpoint forM {A S} (f : A → S → outcome S) (l : list A) (s : S) : outcome S :=
  match l with
  | [] => Ok s
  | x :: l' => s' ← f x s; forM f l' s'
  end.

(** ** The [regexp] package, as the program uses it *)

Class RegexpPkg := {
  Regexp : Type;
  (** [regexp.Compile]: the compiled expression, or the error's text *)
  Compile : string → Regexp + string;
  NumSubexp : Regexp → nat;
  MatchString : Regexp → string → bool;
  (** the text of the leftmost match, [""] when there is none *)
  FindString : Regexp → string → string;
  (** the leftmost match and its groups, [None] for Go's [nil] *)
  FindStringSubmatch : Regexp → string → option (list string);
  FindStringSubmatch_length re s m :
    FindStringSubmatch re s = Some m → length m = S (NumSubexp re);
}.

(** [regexp.MustCompile] *)
Definition MustCompile `{RegexpPkg} (pat : string) : outcome Regexp :=
  match Compile pat with
  | inl re => Ok re
  | inr e => Panic ("regexp: Compile(`" +:+ pat +:+ "`): " +:+ e)
  end.

(** ** An implementation of the interface: a fragment of RE2

    The fragment has ASCII literals, [\d] (ASCII digits, as in Go),
    escaped punctuation, capturing groups, [|] and the greedy [*], [+]
    and [?].  Every atom matches one byte below 128, so matching bytes
    and matching UTF-8 runes agree.

    The fragment is smaller than Go's language: anchors, classes in
    brackets, [.], counted repetition, [\w] and the like, groups that
    do not capture and the lazy operators are outside it, and
    [compile] answers them with an error where [regexp.Compile]
    accepts them.  So this instance runs the expression of
    [normalizeSemVer] and the rules of the examples, and stands for
    no more; whatever is stated of all rules is stated over
    [RegexpPkg], never over this module. *)

Module RE2.

Inductive Re : Type :=
| Eps
| Lit (c : ascii)
| Digit
| Cat (r1 r2 : Re)
| Alt (r1 r2 : Re)
| Star (r : Re)
| Plus (r : Re)
| Quest (r : Re)
| Capture (i : nat) (r : Re).

Definition is_digit (c : ascii) : bool :=
  let n := nat_of_ascii c in (48 <=? n) && (n <=? 57).

(** Whether the expression can match the empty string, as the
    compiler of Go computes it ([nullable] of a fragment in
    regexp/syntax/compile.go). *)
Fixpoint nullable (r : Re) : bool :=
  match r with
  | Eps => true
  | Lit _ | Digit => false
  | Cat r1 r2 => nullable r1 && nullable r2
  | Alt r1 r2 => nullable r1 || nullable r2
  | Star _ | Quest _ => true
  | Plus r1 => nullable r1
  | Capture _ r1 => nullable r1
  end.

(** The part of [s] in front of its suffix [s']. *)
Definition consumed (s s' : list ascii) : string :=
  string_of_list_ascii (take (length s - length s') s).

Section Run.
Context {R : Type}.

(** A continuation receives the rest of the input and the groups. *)
Definition cont : Type := list ascii → list string → option R.

(** Greedy iteration of [step] after a round that consumed input: one
    more round first, the continuation otherwise.  A further round
    that consumes nothing comes back to the same place of the
    expression at the same position, which the search of Go has
    visited already: it is not taken. *)
Fixpoint loop (step : list ascii → list string → cont → option R)
    (n : nat) (s : list ascii) (caps : list string) (k : cont) : option R :=
  match n with
  | 0 => k s caps
  | S n' =>
      match step s caps (λ s1 c1,
              if length s1 <? length s then loop step n' s1 c1 k else None) with
      | Some x => Some x
      | None => k s caps
      end
  end.

(** The rounds of [x+] ([plus] in regexp/syntax/compile.go): after the
    first round, more rounds or the continuation; when the first round
    consumed nothing the way back into [x] is closed at this position
    and the repetition ends there, with the groups of that round. *)
Definition rounds (step : list ascii → list string → cont → option R)
    (s : list ascii) (caps : list string) (k : cont) : option R :=
  step s caps (λ s1 c1,
    if length s1 <? length s then loop step (S (length s1)) s1 c1 k else k s1 c1).

(** Backtracking search in the order of a leftmost-first match:
    the left alternative before the right one, more rounds before
    fewer.  As [star] in regexp/syntax/compile.go, [x*] is [(x+)?]
    when [x] can match the empty string. *)
Fixpoint run (r : Re) (s : list ascii) (caps : list string) (k : cont) : option R :=
  match r with
  | Eps => k s caps
  | Lit c =>
      match s with
      | a :: s' => if Ascii.eqb a c then k s' caps else None
      | [] => None
      end
  | Digit =>
      match s with
      | a :: s' => if is_digit a then k s' caps else None
      | [] => None
      end
  | Cat r1 r2 => run r1 s caps (λ s1 c1, run r2 s1 c1 k)
  | Alt r1 r2 =>
      match run r1 s caps k with
      | Some x => Some x
      | None => run r2 s caps k
      end
  | Star r1 =>
      if nullable r1 then
        match rounds (run r1) s caps k with
        | Some x => Some x
        | None => k s caps
        end
      else loop (run r1) (S (length s)) s caps k
  | Plus r1 => rounds (run r1) s caps k
  | Quest r1 =>
      match run r1 s caps k with
      | Some x => Some x
      | None => k s caps
      end
  | Capture i r1 => run r1 s caps (λ s1 c1, k s1 (<[i := consumed s s1]> c1))
  end.
End Run.

Fixpoint groups (r : Re) : nat :=
  match r with
  | Eps | Lit _ | Digit => 0
  | Cat r1 r2 | Alt r1 r2 => groups r1 + groups r2
  | Star r1 | Plus r1 | Quest r1 => groups r1
  | Capture _ r1 => S (groups r1)
  end.

(** A match that starts at the head of [s]: group 0 is the match. *)
Definition match_here (r : Re) (s : list ascii) : option (list string) :=
  run r s (replicate (S (groups r)) "")
    (λ s1 c1, Some (<[0 := consumed s s1]> c1)).

(** The leftmost match: the first start position that has one. *)
Fixpoint search (r : Re) (s : list ascii) : option (list string) :=
  match match_here r s with
  | Some m => Some m
  | None =>
      match s with
      | [] => None
      | _ :: s' => search r s'
      end
  end.

(** *** Parsing a pattern

    One pass over the pattern with a stack of open groups, as in Go's
    [regexp/syntax]: a frame holds the alternatives closed so far and
    the items of the current concatenation, newest first.  Groups are
    numbered by their opening parenthesis, from 1. *)

Record frame : Type := Frame {
  fidx : nat;
  falts : list Re;
  fcat : list Re;
  (** the repetition operator that ended the last item, if one did *)
  frep : option ascii;
}.

Definition mkcat (items : list Re) : Re :=
  match items with
  | [] => Eps
  | r :: rs => fold_left (λ acc x, Cat x acc) rs r
  end.

Definition mkalt (f : frame) : Re :=
  fold_left (λ acc x, Alt x acc) (falts f) (mkcat (fcat f)).

Definition add (r : Re) (f : frame) : frame :=
  Frame (fidx f) (falts f) (r :: fcat f) None.

Definition is_alnum (c : ascii) : bool :=
  let n := nat_of_ascii c in
  ((48 <=? n) && (n <=? 57)) || ((65 <=? n) && (n <=? 90))
  || ((97 <=? n) && (n <=? 122)).

Definition is_ascii (c : ascii) : bool := nat_of_ascii c <? 128.

Definition repeat_op (c : ascii) : option (Re → Re) :=
  if Ascii.eqb c "*" then Some Star
  else if Ascii.eqb c "+" then Some Plus
  else if Ascii.eqb c "?" then Some Quest
  else None.

Definition outside_fragment (c : ascii) : bool :=
  Ascii.eqb c "." || Ascii.eqb c "[" || Ascii.eqb c "{" || Ascii.eqb c "^"
  || Ascii.eqb c "$" || negb (is_ascii c).

(** The text of a [syntax.Error]: its code and the offending part. *)
Definition parse_error (code expr : string) : Re + string :=
  inr ("error parsing regexp: " +:+ code +:+ ": `" +:+ expr +:+ "`").

(** Syntax that Go accepts and the fragment does not have. *)
Definition unsupported (what : string) : Re + string :=
  inr ("regexp model: " +:+ what +:+ " is outside the fragment").

Fixpoint parse (whole : string) (p : list ascii) (cur : frame) (stack : list frame)
    (n : nat) : Re + string :=
  match p with
  | [] =>
      match stack with
      | [] => inl (mkalt cur)
      | _ :: _ => parse_error "missing closing )" whole
      end
  | c :: p' =>
      if Ascii.eqb c "(" then
        match p' with
        | "?"%char :: _ => unsupported "a group with flags or a name"
        | _ => parse whole p' (Frame (S n) [] [] None) (cur :: stack) (S n)
        end
      else if Ascii.eqb c ")" then
        match stack with
        | [] => parse_error "unexpected )" whole
        | f :: stack' =>
            parse whole p' (add (Capture (fidx cur) (mkalt cur)) f) stack' n
        end
      else if Ascii.eqb c "|" then
        parse whole p' (Frame (fidx cur) (mkcat (fcat cur) :: falts cur) [] None) stack n
      else if Ascii.eqb c "\" then
        match p' with
        | [] => parse_error "trailing backslash at end of expression" ""
        | e :: p'' =>
            if Ascii.eqb e "d" then parse whole p'' (add Digit cur) stack n
            else if is_ascii e && negb (is_alnum e)
            then parse whole p'' (add (Lit e) cur) stack n
            else if is_alnum e then unsupported "an escape of a letter or digit other than \d"
            else parse_error "invalid escape sequence" (String c (String e ""))
        end
      else
        match repeat_op c with
        | Some op =>
            match frep cur, fcat cur with
            | Some prev, _ =>
                if Ascii.eqb c "?" then unsupported "a non-greedy repetition"
                else parse_error "invalid nested repetition operator"
                       (String prev (String c ""))
            | None, [] =>
                parse_error "missing argument to repetition operator" (String c "")
            | None, r :: rs =>
                parse whole p' (Frame (fidx cur) (falts cur) (op r :: rs) (Some c)) stack n
            end
        | None =>
            if outside_fragment c then unsupported "a class, an anchor, a bound or a rune above 127"
            else parse whole p' (add (Lit c) cur) stack n
        end
  end.

Definition compile (pat : string) : Re + string :=
  parse pat (list_ascii_of_string pat) (Frame 0 [] [] None) [] 0.

Definition matchString (r : Re) (s : string) : bool :=
  match search r (list_ascii_of_string s) with
  | Some _ => true
  | None => false
  end.

Definition findString (r : Re) (s : string) : string :=
  match search r (list_ascii_of_string s) with
  | Some (m0 :: _) => m0
  | _ => ""
  end.

Definition findStringSubmatch (r : Re) (s : string) : option (list string) :=
  search r (list_ascii_of_string s).

(** The groups keep their number through a match. *)
Lemma loop_caps {R} (step : list ascii → list string → @cont R → option R) n :
  (∀ s caps k x, step s caps k = Some x →
     ∃ s1 c1, length c1 = length caps ∧ k s1 c1 = Some x) →
  ∀ s caps k x, loop step n s caps k = Some x →
    ∃ s1 c1, length c1 = length caps ∧ k s1 c1 = Some x.
Proof.
  intros Hstep. induction n as [|n IH]; intros s caps k x; simpl.
  - intros Hk. by exists s, caps.
  - destruct (step s caps _) as [y|] eqn:Hs.
    + intros [= ->]. apply Hstep in Hs as (s1 & c1 & Hlen & Hk).
      destruct (length s1 <? length s); [|done].
      apply IH in Hk as (s2 & c2 & Hlen2 & Hk). exists s2, c2. split; [congruence|done].
    + intros Hk. by exists s, caps.
Qed.

Lemma rounds_caps {R} (step : list ascii → list string → @cont R → option R) :
  (∀ s caps k x, step s caps k = Some x →
     ∃ s1 c1, length c1 = length caps ∧ k s1 c1 = Some x) →
  ∀ s caps k x, rounds step s caps k = Some x →
    ∃ s1 c1, length c1 = length caps ∧ k s1 c1 = Some x.
Proof.
  intros Hstep s caps k x H. apply Hstep in H as (s1 & c1 & Hlen & H).
  destruct (length s1 <? length s).
  - apply (loop_caps step _ Hstep) in H as (s2 & c2 & Hlen2 & H).
    exists s2, c2. split; [congruence|done].
  - by exists s1, c1.
Qed.

Lemma run_caps {R} (r : Re) :
  ∀ s caps (k : @cont R) x, run r s caps k = Some x →
    ∃ s1 c1, length c1 = length caps ∧ k s1 c1 = Some x.
Proof.
  induction r as [| c | | r1 IH1 r2 IH2 | r1 IH1 r2 IH2 | r1 IH1 | r1 IH1 | r1 IH1 | i r1 IH1];
    intros s caps k x; cbn [run].
  - intros Hk. by exists s, caps.
  - destruct s as [|a s']; [done|]. destruct (Ascii.eqb a c); [|done].
    intros Hk. by exists s', caps.
  - destruct s as [|a s']; [done|]. destruct (is_digit a); [|done].
    intros Hk. by exists s', caps.
  - intros H. apply IH1 in H as (s1 & c1 & Hlen & H).
    apply IH2 in H as (s2 & c2 & Hlen2 & H). exists s2, c2. split; [congruence|done].
  - destruct (run r1 s caps k) as [y|] eqn:H1.
    + intros [= ->]. by apply IH1 in H1.
    + apply IH2.
  - destruct (nullable r1); [|apply (loop_caps (run r1) (S (length s)) IH1)].
    destruct (rounds (run r1) s caps k) as [y|] eqn:H1.
    + intros [= ->]. by apply (rounds_caps (run r1) IH1) in H1.
    + intros Hk. by exists s, caps.
  - apply (rounds_caps (run r1) IH1).
  - destruct (run r1 s caps k) as [y|] eqn:H1.
    + intros [= ->]. by apply IH1 in H1.
    + intros Hk. by exists s, caps.
  - intros H. apply IH1 in H as (s1 & c1 & Hlen & H).
    eexists _, _. split; [|exact H]. by rewrite length_insert.
Qed.

Lemma search_length (r : Re) (s : list ascii) (m : list string) :
  search r s = Some m → length m = S (groups r).
Proof.
  induction s as [|a s IH]; simpl; unfold match_here;
    destruct (run r _ _ _) as [y|] eqn:Hrun; try done.
  all: intros [= ->]; apply run_caps in Hrun as (s1 & c1 & Hlen & [= <-]).
  all: by rewrite length_insert, Hlen, length_replicate.
Qed.

#[global] Program Instance pkg : RegexpPkg := {|
  Regexp := Re;
  Compile := compile;
  NumSubexp := groups;
  MatchString := matchString;
  FindString := findString;
  FindStringSubmatch := findStringSubmatch;
|}.
Next Obligation. intros re s m. apply search_length. Qed.

End RE2.

(** ** The order of a [range] over a map

    Each [range] loop over a map in the source is a site; the oracle
    chooses, for each site, an order in which the entries of the map
    are visited.  The inner loops run once per namespace, so their
    sites carry the namespace. *)

Inductive RangeSite : Type :=
| range_acc                              (* main.go:140 *)
| range_acc_images (ns : string)         (* main.go:141 *)
| range_imagesByNs                       (* main.go:60 *)
| range_uniqImagesByNs                   (* main.go:81 *)
| range_versionedImage (ns : string).    (* main.go:82 *)

Class MapOrder := {
  range : ∀ {V : Type}, RangeSite → gmap string V → list (string * V);
  range_perm : ∀ (V : Type) (site : RangeSite) (m : gmap string V),
    range site m ≡ₚ map_to_list m;
}.

(** The order in which stdpp lists a map is one such oracle. *)
#[global] Program Instance listed_order : MapOrder := {|
  range V _ m := map_to_list m;
|}.
Next Obligation. done. Qed.

(** ** Package [rules] *)

Module Yaml.
Record DetectionRuleYaml : Type := {
  ApplicationName : string;
  VersionRegex : string;
  DetectionRegex : string;
}.
End Yaml.
Export Yaml (DetectionRuleYaml).

Record DetectionConfigFile : Type := {
  DockerImages : list DetectionRuleYaml;
}.

(** [os.ReadFile], [os.Getenv] *)
Class OS := {
  ReadFile : string → string + string;
  Getenv : string → string;
}.

(** [yaml.Unmarshal] into a [DetectionConfigFile] *)
Class YamlPkg := {
  Unmarshal : string → DetectionConfigFile + string;
}.

Section Rules.
Context `{regexp : RegexpPkg} `{os : OS} `{yaml : YamlPkg}.

Record Rule : Type := {
  ApplicationName : string;
  VersionRegex : Regexp;
  DetectionRegex : Regexp;
}.

(** The body of the loop of [LoadRules]. *)
Definition LoadRules_body (r : DetectionRuleYaml) (rules : list Rule)
    : outcome (list Rule) :=
  match Compile (Yaml.DetectionRegex r) with
  | inr err =>
      Error ("invalid detection regex for " +:+ Yaml.ApplicationName r +:+ ": " +:+ err)
  | inl detectRe =>
      match Compile (Yaml.VersionRegex r) with
      | inr err =>
          Error ("invalid version regex for " +:+ Yaml.ApplicationName r +:+ ": " +:+ err)
      | inl versionRe =>
          Ok (rules ++ [{| ApplicationName := Yaml.ApplicationName r;
                           DetectionRegex := detectRe;
                           VersionRegex := versionRe |}])
      end
  end.

Definition LoadRules (path : string) : outcome (list Rule) :=
  match ReadFile path with
  | inr err => Error err
  | inl data =>
      match Unmarshal data with
      | inr err => Error err
      | inl rf => forM LoadRules_body (DockerImages rf) []
      end
  end.
End Rules.

(** ** Package [main] *)

Record HelmChartInfo : Type := {
  ChartName : string;
  Version : string;
  Namespace : string;
}.

Record ClusterInfo : Type := {
  ClusterName : string;
  KubeVersion : string;
  HelmCharts : list HelmChartInfo;
}.

(** [corev1.Container] and [corev1.PodSpec], the fields that are read. *)
Record Container : Type := { Image : string }.

Record PodSpec : Type := {
  Containers : list Container;
  InitContainers : list Container;
}.

(** [kubernetes.Interface], the calls that are made.  A list call gives,
    for each item, its pod template ([Spec.Template.Spec]). *)
Record Client : Type := {
  Namespaces_List : outcome (list string);
  Deployments_List : string → outcome (list PodSpec);
  StatefulSets_List : string → outcome (list PodSpec);
  DaemonSets_List : string → outcome (list PodSpec);
  ServerVersion : outcome string;
}.

(** [m[i]] on a slice *)
Definition index (m : list string) (i : nat) : outcome string :=
  match m !! i with
  | Some x => Ok x
  | None => Panic "index out of range"
  end.

(** [acc[ns][img] = 1]: a store into the inner map, which panics when
    [acc[ns]] is the nil map. *)
Definition store_image (ns img : string) (acc : gmap string (gmap string Z))
    : outcome (gmap string (gmap string Z)) :=
  match acc !! ns with
  | Some images => Ok (<[ns := <[img := 1%Z]> images]> acc)
  | None => Panic "assignment to entry in nil map"
  end.

Definition collectImages (spec : PodSpec) (ns : string)
    (acc : gmap string (gmap string Z)) : outcome (gmap string (gmap string Z)) :=
  acc ← forM (λ c, store_image ns (Image c)) (Containers spec) acc;
  forM (λ c, store_image ns (Image c)) (InitContainers spec) acc.

Definition collectFromDeployments (client : Client) (ns : string)
    (acc : gmap string (gmap string Z)) : outcome (gmap string (gmap string Z)) :=
  deploys ← Deployments_List client ns;
  forM (λ d, collectImages d ns) deploys acc.

Definition collectFromStatefulSets (client : Client) (ns : string)
    (acc : gmap string (gmap string Z)) : outcome (gmap string (gmap string Z)) :=
  sets ← StatefulSets_List client ns;
  forM (λ s, collectImages s ns) sets acc.

Definition collectFromDaemonSets (client : Client) (ns : string)
    (acc : gmap string (gmap string Z)) : outcome (gmap string (gmap string Z)) :=
  sets ← DaemonSets_List client ns;
  forM (λ d, collectImages d ns) sets acc.

(** The pattern of [versionRe] (main.go:52). *)
Definition versionRe_pattern : string := "(\d+)\.(\d+)(\.\d+)?".

Section Main.
Context `{regexp : RegexpPkg} `{os : OS} `{yaml : YamlPkg} `{order : MapOrder}.

(** The body of the loop over the namespaces (main.go:120-136). *)
Definition collect_namespace (client : Client) (nsName : string)
    (acc : gmap string (gmap string Z)) : outcome (gmap string (gmap string Z)) :=
  let acc := match acc !! nsName with
             | Some _ => acc
             | None => <[nsName := ∅]> acc
             end in
  acc ← collectFromDeployments client nsName acc;
  acc ← collectFromStatefulSets client nsName acc;
  collectFromDaemonSets client nsName acc.

(** [result[ns] = append(result[ns], img)] *)
Definition append_image (ns img : string) (result : gmap string (list string))
    : gmap string (list string) :=
  <[ns := default [] (result !! ns) ++ [img]]> result.

(** The two nested [range] loops that turn the sets into slices
    (main.go:139-144). *)
Definition to_slices (acc : gmap string (gmap string Z)) : gmap string (list string) :=
  foldl (λ result '(ns, images),
           foldl (λ result '(img, _), append_image ns img result)
                 result (range (range_acc_images ns) images))
        ∅ (range range_acc acc).

Definition CollectNamespaceImages (client : Client) : outcome (gmap string (list string)) :=
  namespaces ← Namespaces_List client;
  acc ← forM (collect_namespace client) namespaces ∅;
  Ok (to_slices acc).

Definition normalizeSemVer (imageVer : string) (versionRe : Regexp)
    : outcome (option string) :=
  match FindStringSubmatch versionRe imageVer with
  | None => Ok None
  | Some m =>
      major ← index m 1;
      minor ← index m 2;
      patch ← index m 3;
      let patch := if decide (patch = "") then ".0" else patch in
      Ok (Some (major +:+ "." +:+ minor +:+ patch))
  end.

(** [uniqImagesByNs[ns][app] = v], after the inner map is made when
    the namespace has none yet (main.go:68-71). *)
Definition store_version (ns app v : string)
    (uniqImagesByNs : gmap string (gmap string string))
    : gmap string (gmap string string) :=
  <[ns := <[app := v]> (default ∅ (uniqImagesByNs !! ns))]> uniqImagesByNs.

(** The body of the loop over the rules (main.go:64-75). *)
Definition match_rule (versionRe : Regexp) (ns img : string) (rule : Rule)
    (uniqImagesByNs : gmap string (gmap string string))
    : outcome (gmap string (gmap string string)) :=
  if MatchString (DetectionRegex rule) img then
    r ← normalizeSemVer (FindString (VersionRegex rule) img) versionRe;
    match r with
    | Some v => Ok (store_version ns (ApplicationName rule) v uniqImagesByNs)
    | None => Ok uniqImagesByNs
    end
  else Ok uniqImagesByNs.

(** The loop over the rules, for one image (main.go:63-76). *)
Definition match_image (rules : list Rule) (versionRe : Regexp) (ns img : string)
    (uniqImagesByNs : gmap string (gmap string string))
    : outcome (gmap string (gmap string string)) :=
  forM (match_rule versionRe ns img) rules uniqImagesByNs.

(** The loop over the images of one namespace (main.go:62-77). *)
Definition match_namespace (rules : list Rule) (versionRe : Regexp)
    (ns : string) (images : list string)
    (uniqImagesByNs : gmap string (gmap string string))
    : outcome (gmap string (gmap string string)) :=
  forM (match_image rules versionRe ns) images uniqImagesByNs.

(** The matching stage (main.go:59-78). *)
Definition match_stage (rules : list Rule) (versionRe : Regexp)
    (imagesByNs : gmap string (list string))
    : outcome (gmap string (gmap string string)) :=
  forM (λ '(ns, images), match_namespace rules versionRe ns images)
       (range range_imagesByNs imagesByNs) ∅.

(** The report stage (main.go:80-89): in [for v, i := range
    versionedImage], [v] is the key of the entry and [i] its value. *)
Definition report_stage (uniqImagesByNs : gmap string (gmap string string))
    : list HelmChartInfo :=
  foldl (λ imagesInstalled '(ns, versionedImage),
           foldl (λ imagesInstalled '(v, i),
                    imagesInstalled ++
                      [{| ChartName := i; Version := v; Namespace := ns |}])
                 imagesInstalled (range (range_versionedImage ns) versionedImage))
        [] (range range_uniqImagesByNs uniqImagesByNs).

Definition getClusterName : string :=
  let envClusterName := Getenv "CLUSTER_NAME" in
  if decide (envClusterName ≠ "") then envClusterName else "minikube".

(** Only a returned error is met with the default (main.go:276-279);
    a panic of the call is recovered nowhere and unwinds the caller. *)
Definition getKubernetesVersion (clientset : Client) : outcome string :=
  match ServerVersion clientset with
  | Ok versionInfo => Ok versionInfo
  | Error _ => Ok "unknown-version"
  | Panic p => Panic p
  end.

(** A returned error that reaches [log.Fatalf] ends the run. *)
Definition fatal {A} (msg : string) (o : outcome A) : outcome A :=
  match o with
  | Error e => Error (msg +:+ e)
  | _ => o
  end.

(** [main], from the loading of the rules to the value that is
    serialised and sent; [clientset] is the client of the cluster
    and [RULES_FILE] the configured path. *)
Definition main (clientset : Client) (RULES_FILE : string) : outcome ClusterInfo :=
  rules ← fatal "Can't configure RULES_FILE: " (LoadRules RULES_FILE);
  versionRe ← MustCompile versionRe_pattern;
  imagesByNs ← CollectNamespaceImages clientset;
  uniqImagesByNs ← match_stage rules versionRe imagesByNs;
  let imagesInstalled := report_stage uniqImagesByNs in
  let clusterName := getClusterName in
  kubeVersion ← getKubernetesVersion clientset;
  Ok {| ClusterName := clusterName;
        KubeVersion := kubeVersion;
        HelmCharts := imagesInstalled |}.
End Main.

(** ** The entry point that reports for the whole cluster

    The repository holds a second [main] (config/env.go:166-246), which
    collects one set of images for the whole cluster and matches them
    in sorted order.  Its loop over the rules is the one of [main]
    above, with the same [normalizeSemVer], and ends in [break]. *)

Module ClusterWide.
Section Main.
Context `{regexp : RegexpPkg}.

(** The loop over the rules, for one image (env.go:211-229): the first
    rule whose detection pattern matches ends it, whether or not a
    version was resolved. *)
Fixpoint match_image (rules : list Rule) (versionRe : Regexp) (img : string)
    (imagesInstalled : list HelmChartInfo) : outcome (list HelmChartInfo) :=
  match rules with
  | [] => Ok imagesInstalled
  | rule :: rules' =>
      if MatchString (DetectionRegex rule) img then
        r ← normalizeSemVer (FindString (VersionRegex rule) img) versionRe;
        match r with
        | Some v =>
            Ok (imagesInstalled ++
                  [{| ChartName := ApplicationName rule;
                      Version := v;
                      Namespace := "***masked***" |}])
        | None => Ok imagesInstalled
        end
      else match_image rules' versionRe img imagesInstalled
  end.
End Main.
End ClusterWide.

(** ** The expression of [main] in the fragment *)

Definition versionRe : RE2.Re :=
  RE2.Cat (RE2.Capture 1 (RE2.Plus RE2.Digit))
    (RE2.Cat (RE2.Lit ".")
       (RE2.Cat (RE2.Capture 2 (RE2.Plus RE2.Digit))
          (RE2.Quest (RE2.Capture 3 (RE2.Cat (RE2.Lit ".") (RE2.Plus RE2.Digit)))))).

(** ** Vocabulary of the statements *)

(** A run of decimal digits. *)
Definition all_digits (d : list ascii) : bool := forallb RE2.is_digit d.

(** No digit at all, so that no version can start there. *)
Definition no_digits (pre : list ascii) : bool :=
  forallb (λ c, negb (RE2.is_digit c)) pre.

Definition starts_with_digit (t : list ascii) : bool :=
  match t with
  | c :: _ => RE2.is_digit c
  | [] => false
  end.

(** What follows [major.minor] is no patch component: neither a digit
    (which would extend [minor]) nor a dot and a digit. *)
Definition no_patch (t : list ascii) : bool :=
  negb (starts_with_digit t) &&
  match t with
  | "."%char :: t' => negb (starts_with_digit t')
  | _ => true
  end.

(** A digit, a dot and a digit next to each other, somewhere. *)
Fixpoint has_version (l : list ascii) : bool :=
  match l with
  | [] => false
  | a :: t =>
      (RE2.is_digit a &&
       match t with
       | "."%char :: b :: _ => RE2.is_digit b
       | _ => false
       end)
      || has_version t
  end.

(** A version starts at the head: a run of digits, a dot and a digit. *)
Fixpoint version_here (l : list ascii) : bool :=
  match l with
  | [] => false
  | a :: t =>
      RE2.is_digit a &&
      (version_here t ||
       match t with
       | "."%char :: b :: _ => RE2.is_digit b
       | _ => false
       end)
  end.

(** The images of the containers of some pod specs, in the order in
    which [collectImages] stores them. *)
Definition images_of (specs : list PodSpec) : list string :=
  specs ≫= λ spec, Image <$> (Containers spec ++ InitContainers spec).

(** The entry of an application in a namespace of the aggregate. *)
Definition entry (ns app : string) (uniqImagesByNs : gmap string (gmap string string))
    : option string :=
  uniqImagesByNs !! ns ≫= λ versionedImage, versionedImage !! app.

(** The detected components that an aggregate holds: its entries, as
    namespace, application and version. *)
Definition components (uniqImagesByNs : gmap string (gmap string string))
    : list (string * string * string) :=
  map_to_list uniqImagesByNs ≫= λ '(ns, versionedImage),
    (λ '(app, v), (ns, app, v)) <$> map_to_list versionedImage.

Section Vocabulary.
Context `{regexp : RegexpPkg}.

(** [rule] resolves a version [v] on [img]: its detection pattern
    matches and the normalised version is [v]. *)
Definition resolves (re : Regexp) (img : string) (rule : Rule) (v : string) : Prop :=
  MatchString (DetectionRegex rule) img = true ∧
  normalizeSemVer (FindString (VersionRegex rule) img) re = Ok (Some v).

(** The store that a rule makes for an image, if any: application and
    version. *)
Definition hit (re : Regexp) (img : string) (rule : Rule) : option (string * string) :=
  if MatchString (DetectionRegex rule) img then
    match normalizeSemVer (FindString (VersionRegex rule) img) re with
    | Ok (Some v) => Some (ApplicationName rule, v)
    | _ => None
    end
  else None.

(** The stores of a namespace, in the order of the loops: image by
    image, and rule by rule for each. *)
Definition hits (re : Regexp) (rules : list Rule) (images : list string)
    : list (string * string) :=
  images ≫= λ img, omap (hit re img) rules.

(** The version of the last store for [app], if there is one. *)
Definition last_hit (app : string) (ws : list (string * string)) : option string :=
  snd <$> last (filter (λ w, w.1 = app) ws).
End Vocabulary.

Section RuleVocabulary.
Context `{regexp : RegexpPkg}.

(** [rule] is the declared rule [r] with both patterns compiled. *)
Definition compiled (r : DetectionRuleYaml) (rule : Rule) : Prop :=
  ApplicationName rule = Yaml.ApplicationName r ∧
  Compile (Yaml.DetectionRegex r) = inl (DetectionRegex rule) ∧
  Compile (Yaml.VersionRegex r) = inl (VersionRegex rule).

(** [msg] is the error of [LoadRules] for a pattern of [r] that does
    not compile: the detection pattern, or else the version pattern. *)
Definition rejected (r : DetectionRuleYaml) (msg : string) : Prop :=
  (∃ err, Compile (Yaml.DetectionRegex r) = inr err ∧
          msg = "invalid detection regex for " +:+ Yaml.ApplicationName r +:+ ": " +:+ err) ∨
  (∃ detectRe err,
      Compile (Yaml.DetectionRegex r) = inl detectRe ∧
      Compile (Yaml.VersionRegex r) = inr err ∧
      msg = "invalid version regex for " +:+ Yaml.ApplicationName r +:+ ": " +:+ err).
End RuleVocabulary.

(** The pod specs of the workloads of a namespace, in the order in
    which [CollectNamespaceImages] lists them, when the three calls
    succeed. *)
Definition workloads (client : Client) (ns : string) : option (list PodSpec) :=
  match Deployments_List client ns, StatefulSets_List client ns,
        DaemonSets_List client ns with
  | Ok deploys, Ok sets, Ok daemons => Some (deploys ++ sets ++ daemons)
  | _, _, _ => None
  end.

(** The three list calls that [CollectNamespaceImages] makes for a
    namespace, in their order: the first that fails decides. *)
Definition list_workloads (client : Client) (ns : string) : outcome (list PodSpec) :=
  deploys ← Deployments_List client ns;
  sets ← StatefulSets_List client ns;
  daemons ← DaemonSets_List client ns;
  Ok (deploys ++ sets ++ daemons).

(** No namespace of the aggregate has an empty map. *)
Definition no_empty_namespace (u : gmap string (gmap string string)) : Prop :=
  ∀ ns versionedImage, u !! ns = Some versionedImage → versionedImage ≠ ∅.

(** The set that [collectImages] builds, one store per image. *)
Definition add_images (imgs : list string) (m : gmap string Z) : gmap string Z :=
  foldl (λ m img, <[img := 1%Z]> m) m imgs.

(** ** Fixtures: rule files, a cluster *)

Module Fixture.

Definition must (pat : string) : RE2.Re :=
  match RE2.compile pat with
  | inl re => re
  | inr _ => RE2.Eps
  end.

Definition redis_yaml : DetectionRuleYaml :=
  {| Yaml.ApplicationName := "redis";
     Yaml.DetectionRegex := "redis";
     Yaml.VersionRegex := "redis:(\d+\.\d+\.\d+)" |}.

Definition cache_yaml : DetectionRuleYaml :=
  {| Yaml.ApplicationName := "cache";
     Yaml.DetectionRegex := "re";
     Yaml.VersionRegex := "\d+\.\d+" |}.

Definition broken_yaml : DetectionRuleYaml :=
  {| Yaml.ApplicationName := "nginx";
     Yaml.DetectionRegex := "nginx";
     Yaml.VersionRegex := "nginx:(\d+" |}.

Definition redis_rule : Rule :=
  {| ApplicationName := "redis";
     DetectionRegex := must "redis";
     VersionRegex := must "redis:(\d+\.\d+\.\d+)" |}.

Definition cache_rule : Rule :=
  {| ApplicationName := "cache";
     DetectionRegex := must "re";
     VersionRegex := must "\d+\.\d+" |}.

(** A rule whose version pattern asks for a [v] that the image lacks. *)
Definition tagless_rule : Rule :=
  {| ApplicationName := "nginx";
     DetectionRegex := must "nginx";
     VersionRegex := must "v\d+\.\d+" |}.

(** The rule files of the examples: where each one is, its text, and
    the value that [yaml.Unmarshal] decodes it to. *)
Record document : Type := {
  doc_path : string;
  doc_text : string;
  doc_decoded : DetectionConfigFile;
}.

Definition redis_doc : document :=
  {| doc_path := "/etc/keepup/redis.yaml";
     doc_text := "docker:
  - applicationName: redis
    detectionRegex: redis
    versionRegex: redis:(\d+\.\d+\.\d+)
";
     doc_decoded := {| DockerImages := [redis_yaml] |} |}.

Definition broken_doc : document :=
  {| doc_path := "/etc/keepup/broken.yaml";
     doc_text := "docker:
  - applicationName: redis
    detectionRegex: redis
    versionRegex: redis:(\d+\.\d+\.\d+)
  - applicationName: nginx
    detectionRegex: nginx
    versionRegex: nginx:(\d+
  - applicationName: cache
    detectionRegex: re
    versionRegex: \d+\.\d+
";
     doc_decoded := {| DockerImages := [redis_yaml; broken_yaml; cache_yaml] |} |}.

Definition empty_doc : document :=
  {| doc_path := "/etc/keepup/empty.yaml";
     doc_text := "docker: []
";
     doc_decoded := {| DockerImages := [] |} |}.

Definition keyless_doc : document :=
  {| doc_path := "/etc/keepup/keyless.yaml";
     doc_text := "helm: []
";
     doc_decoded := {| DockerImages := [] |} |}.

Definition documents : list document :=
  [redis_doc; broken_doc; empty_doc; keyless_doc].

#[global] Instance os : OS := {|
  ReadFile path :=
    match list_find (λ d, doc_path d = path) documents with
    | Some (_, d) => inl (doc_text d)
    | None => inr ("open " +:+ path +:+ ": no such file or directory")
    end;
  Getenv _ := "";
|}.

#[global] Instance yaml : YamlPkg := {|
  Unmarshal data :=
    match list_find (λ d, doc_text d = data) documents with
    | Some (_, d) => inl (doc_decoded d)
    | None => inr "yaml: unmarshal errors"
    end;
|}.

Definition redis_pod : PodSpec :=
  {| Containers := [{| Image := "redis:7.2.4" |}]; InitContainers := [] |}.

(** One namespace, the image observed in a Deployment and in a
    StatefulSet. *)
Definition cluster : Client :=
  {| Namespaces_List := Ok ["ns1"];
     Deployments_List _ := Ok [redis_pod];
     StatefulSets_List _ := Ok [redis_pod];
     DaemonSets_List _ := Ok [];
     ServerVersion := Ok "v1.30.0" |}.

(** Two namespaces; the StatefulSets of the second cannot be listed. *)
Definition failing_cluster : Client :=
  {| Namespaces_List := Ok ["ns1"; "ns2"; "ns3"];
     Deployments_List _ := Ok [redis_pod];
     StatefulSets_List ns :=
       if decide (ns = "ns2") then Error "statefulsets.apps is forbidden" else Ok [];
     DaemonSets_List _ := Ok [];
     ServerVersion := Error "connection refused" |}.

(** A namespace without workloads beside one with an image. *)
Definition sparse_cluster : Client :=
  {| Namespaces_List := Ok ["ns1"; "idle"];
     Deployments_List ns := if decide (ns = "ns1") then Ok [redis_pod] else Ok [];
     StatefulSets_List _ := Ok [];
     DaemonSets_List _ := Ok [];
     ServerVersion := Ok "v1.30.0" |}.

(** The cluster of the scenario, where the call for the version of the
    server returns an error. *)
Definition unreachable_cluster : Client :=
  {| Namespaces_List := Ok ["ns1"];
     Deployments_List _ := Ok [redis_pod];
     StatefulSets_List _ := Ok [redis_pod];
     DaemonSets_List _ := Ok [];
     ServerVersion := Error "connection refused" |}.

(** The same cluster, where that call panics. *)
Definition panicking_cluster : Client :=
  {| Namespaces_List := Ok ["ns1"];
     Deployments_List _ := Ok [redis_pod];
     StatefulSets_List _ := Ok [redis_pod];
     DaemonSets_List _ := Ok [];
     ServerVersion :=
       Panic "runtime error: invalid memory address or nil pointer dereference" |}.

End Fixture.

(** * Properties *)

(** ** The expression that [main] compiles *)

Lemma MustCompile_versionRe : MustCompile versionRe_pattern = Ok versionRe.
Proof. reflexivity. Qed.

Lemma versionRe_groups : NumSubexp versionRe = 3.
Proof. reflexivity. Qed.

(** ** The fragment: greedy runs of digits *)

Lemma consumed_app (d rest : list ascii) :
  RE2.consumed (d ++ rest) rest = string_of_list_ascii d.
Proof.
  unfold RE2.consumed. rewrite length_app.
  replace (length d + length rest - length rest) with (length d) by lia.
  by rewrite take_app_length.
Qed.

Lemma consumed_prefix (s pre rest : list ascii) :
  s = pre ++ rest → RE2.consumed s rest = string_of_list_ascii pre.
Proof. intros ->. apply consumed_app. Qed.

Ltac app_eq :=
  repeat (rewrite <- app_assoc || rewrite <- app_comm_cons); reflexivity.

Lemma consumed_nil (s : list ascii) : RE2.consumed s s = "".
Proof. unfold RE2.consumed. by rewrite Nat.sub_diag, take_0. Qed.

Section Digits.
Context {R : Type}.
Implicit Types (k : @RE2.cont R) (d s rest : list ascii) (caps : list string).

Lemma loop_S (step : list ascii → list string → @RE2.cont R → option R) n s caps k :
  RE2.loop step (S n) s caps k =
  match step s caps (λ s1 c1,
          if length s1 <? length s then RE2.loop step n s1 c1 k else None) with
  | Some x => Some x
  | None => k s caps
  end.
Proof. reflexivity. Qed.

Lemma run_Digit_cons c s caps k :
  RE2.run RE2.Digit (c :: s) caps k = if RE2.is_digit c then k s caps else None.
Proof. reflexivity. Qed.

Lemma run_Plus r s caps k :
  RE2.run (RE2.Plus r) s caps k =
  RE2.run r s caps (λ s1 c1,
    if length s1 <? length s then RE2.loop (RE2.run r) (S (length s1)) s1 c1 k
    else k s1 c1).
Proof. reflexivity. Qed.

(** A round of [\d] consumes a byte, so the rounds of [\d+] go on. *)
Lemma run_Plus_Digit_cons c s caps k :
  RE2.run (RE2.Plus RE2.Digit) (c :: s) caps k =
  if RE2.is_digit c then RE2.loop (RE2.run RE2.Digit) (S (length s)) s caps k
  else None.
Proof.
  rewrite run_Plus, run_Digit_cons. destruct (RE2.is_digit c); [|done].
  replace (length s <? length (c :: s)) with true; [done|].
  symmetry. apply Nat.ltb_lt. simpl. lia.
Qed.

(** A greedy loop over digits takes the whole run when what follows
    succeeds after it. *)
Lemma loop_digits d : ∀ n rest caps k x,
  all_digits d = true → starts_with_digit rest = false → length d ≤ n →
  k rest caps = Some x →
  RE2.loop (RE2.run RE2.Digit) n (d ++ rest) caps k = Some x.
Proof.
  induction d as [|c d IH]; intros n rest caps k x Hd Hrest Hn Hk.
  - destruct n as [|n]; [done|]. rewrite loop_S. simpl app.
    destruct rest as [|a rest]; [by rewrite Hk|].
    rewrite run_Digit_cons. simpl in Hrest. by rewrite Hrest.
  - destruct n as [|n]; [simpl in Hn; lia|].
    cbn in Hd. apply andb_prop in Hd as [Hc Hd].
    simpl app. rewrite loop_S, run_Digit_cons, Hc.
    replace (length (d ++ rest) <? length (c :: d ++ rest)) with true
      by (symmetry; apply Nat.ltb_lt; simpl; lia).
    rewrite (IH n rest caps k x); [done..| |done]. simpl in Hn. lia.
Qed.

Lemma run_plus_digits d rest caps k x :
  d ≠ [] → all_digits d = true → starts_with_digit rest = false →
  k rest caps = Some x →
  RE2.run (RE2.Plus RE2.Digit) (d ++ rest) caps k = Some x.
Proof.
  intros Hne Hd Hrest Hk. destruct d as [|c d]; [done|].
  cbn in Hd. apply andb_prop in Hd as [Hc Hd].
  simpl app. rewrite run_Plus_Digit_cons, Hc.
  apply loop_digits; [done..| |done]. rewrite length_app. lia.
Qed.

Lemma run_plus_digits_none s caps k :
  starts_with_digit s = false → RE2.run (RE2.Plus RE2.Digit) s caps k = None.
Proof.
  destruct s as [|c s]; [done|].
  rewrite run_Plus_Digit_cons. simpl. by intros ->.
Qed.

(** Conversely, whatever a loop over digits consumed was digits. *)
Lemma loop_digits_inv n : ∀ s caps k x,
  RE2.loop (RE2.run RE2.Digit) n s caps k = Some x →
  ∃ d rest, s = d ++ rest ∧ all_digits d = true ∧ k rest caps = Some x.
Proof.
  induction n as [|n IH]; intros s caps k x.
  - intros Hk. by exists [], s.
  - rewrite loop_S. destruct (RE2.run _ _ _ _) as [y|] eqn:Hrun.
    + intros [= ->]. destruct s as [|c s]; [done|].
      rewrite run_Digit_cons in Hrun.
      destruct (RE2.is_digit c) eqn:Hc; [|done].
      destruct (length s <? _); [|done].
      apply IH in Hrun as (d & rest & -> & Hd & Hk).
      exists (c :: d), rest. unfold all_digits in *. cbn. by rewrite Hc, Hd.
    + intros Hk. by exists [], s.
Qed.

Lemma run_plus_digits_inv s caps k x :
  RE2.run (RE2.Plus RE2.Digit) s caps k = Some x →
  ∃ d rest, s = d ++ rest ∧ d ≠ [] ∧ all_digits d = true ∧ k rest caps = Some x.
Proof.
  destruct s as [|c s]; [done|].
  rewrite run_Plus_Digit_cons. destruct (RE2.is_digit c) eqn:Hc; [|done].
  intros (d & rest & -> & Hd & Hk)%loop_digits_inv.
  exists (c :: d), rest. unfold all_digits in *. cbn. by rewrite Hc, Hd.
Qed.
End Digits.

(** ** [versionRe] on [major.minor] and on [major.minor.patch] *)

Section VersionRe.
Context {R : Type}.
Implicit Types (k : @RE2.cont R) (s rest : list ascii) (caps : list string).

Lemma run_Cat r1 r2 s caps k :
  RE2.run (RE2.Cat r1 r2) s caps k = RE2.run r1 s caps (λ s1 c1, RE2.run r2 s1 c1 k).
Proof. reflexivity. Qed.

Lemma run_Capture i r s caps k :
  RE2.run (RE2.Capture i r) s caps k =
  RE2.run r s caps (λ s1 c1, k s1 (<[i := RE2.consumed s s1]> c1)).
Proof. reflexivity. Qed.

Lemma run_Lit c s caps k :
  RE2.run (RE2.Lit c) s caps k =
  match s with
  | a :: s' => if Ascii.eqb a c then k s' caps else None
  | [] => None
  end.
Proof. reflexivity. Qed.

Lemma run_Quest r s caps k :
  RE2.run (RE2.Quest r) s caps k =
  match RE2.run r s caps k with
  | Some x => Some x
  | None => k s caps
  end.
Proof. reflexivity. Qed.

(** The optional group [(\.\d+)] finds nothing where no patch follows. *)
Lemma run_patch_none rest caps k :
  no_patch rest = true →
  RE2.run (RE2.Capture 3 (RE2.Cat (RE2.Lit ".") (RE2.Plus RE2.Digit))) rest caps k = None.
Proof.
  intros Hrest. rewrite run_Capture, run_Cat, run_Lit.
  destruct rest as [|a rest]; [done|].
  destruct (Ascii.eqb a ".") eqn:Ha; [|done].
  apply Ascii.eqb_eq in Ha as ->. apply run_plus_digits_none.
  unfold no_patch in Hrest. simpl in Hrest. by apply negb_true_iff in Hrest.
Qed.
End VersionRe.

Lemma orelse_Some {A} (o e : option A) (x : A) :
  o = Some x → match o with Some y => Some y | None => e end = Some x.
Proof. by intros ->. Qed.

Lemma no_patch_no_digit (t : list ascii) :
  no_patch t = true → starts_with_digit t = false.
Proof. unfold no_patch. intros [H _]%andb_prop. by apply negb_true_iff. Qed.

(** At the head of [major.minor]: the match, with an empty third group. *)
Lemma match_here_minor (d1 d2 t : list ascii) :
  d1 ≠ [] → all_digits d1 = true → d2 ≠ [] → all_digits d2 = true →
  no_patch t = true →
  RE2.match_here versionRe (d1 ++ "."%char :: d2 ++ t) =
  Some [string_of_list_ascii (d1 ++ "."%char :: d2);
        string_of_list_ascii d1; string_of_list_ascii d2; ""].
Proof.
  intros Hne1 Hd1 Hne2 Hd2 Ht. unfold RE2.match_here, versionRe.
  rewrite run_Cat, run_Capture. apply run_plus_digits; [done..|]. cbn beta.
  rewrite run_Cat, run_Lit, Ascii.eqb_refl, run_Cat, run_Capture.
  apply run_plus_digits; [done..|by apply no_patch_no_digit|]. cbn beta.
  rewrite run_Quest, run_patch_none by done.
  rewrite !consumed_app.
  by rewrite (consumed_prefix _ (d1 ++ "."%char :: d2) t) by app_eq.
Qed.

(** At the head of [major.minor.patch]: the third group is the dot and
    the patch. *)
Lemma match_here_patch (d1 d2 d3 t : list ascii) :
  d1 ≠ [] → all_digits d1 = true → d2 ≠ [] → all_digits d2 = true →
  d3 ≠ [] → all_digits d3 = true → starts_with_digit t = false →
  RE2.match_here versionRe (d1 ++ "."%char :: d2 ++ "."%char :: d3 ++ t) =
  Some [string_of_list_ascii (d1 ++ "."%char :: d2 ++ "."%char :: d3);
        string_of_list_ascii d1; string_of_list_ascii d2;
        string_of_list_ascii ("."%char :: d3)].
Proof.
  intros Hne1 Hd1 Hne2 Hd2 Hne3 Hd3 Ht. unfold RE2.match_here, versionRe.
  rewrite run_Cat, run_Capture. apply run_plus_digits; [done..|]. cbn beta.
  rewrite run_Cat, run_Lit, Ascii.eqb_refl, run_Cat, run_Capture.
  apply run_plus_digits; [done..|]. cbn beta.
  rewrite run_Quest. apply orelse_Some.
  rewrite run_Capture, run_Cat, run_Lit, Ascii.eqb_refl.
  apply run_plus_digits; [done..|]. cbn beta.
  rewrite !consumed_app.
  rewrite (consumed_prefix ("."%char :: d3 ++ t) ("."%char :: d3) t) by app_eq.
  by rewrite (consumed_prefix _ (d1 ++ "."%char :: d2 ++ "."%char :: d3) t) by app_eq.
Qed.

(** ** The leftmost match *)

Lemma search_cons (r : RE2.Re) (c : ascii) (s : list ascii) :
  RE2.search r (c :: s) =
  match RE2.match_here r (c :: s) with
  | Some m => Some m
  | None => RE2.search r s
  end.
Proof. reflexivity. Qed.

Lemma search_here (r : RE2.Re) (s : list ascii) (m : list string) :
  RE2.match_here r s = Some m → RE2.search r s = Some m.
Proof. intros Hm. destruct s; simpl; by rewrite Hm. Qed.

(** The match that [search] returns starts where the first match
    starts: no suffix that begins before it has a match at its head. *)
Lemma search_leftmost (r : RE2.Re) (s : list ascii) (m : list string) :
  RE2.search r s = Some m →
  ∃ pre rest, s = pre ++ rest ∧ RE2.match_here r rest = Some m ∧
    ∀ pre1 pre2, pre = pre1 ++ pre2 → pre2 ≠ [] →
      RE2.match_here r (pre2 ++ rest) = None.
Proof.
  induction s as [|c s IH].
  - simpl. destruct (RE2.match_here r []) as [y|] eqn:Hm; [|done].
    intros [= ->]. exists [], []. split_and!; [done..|].
    intros pre1 pre2 Hpre Hne. by destruct pre1, pre2.
  - rewrite search_cons. destruct (RE2.match_here r (c :: s)) as [y|] eqn:Hm.
    + intros [= ->]. exists [], (c :: s). split_and!; [done..|].
      intros pre1 pre2 Hpre Hne. by destruct pre1, pre2.
    + intros (pre & rest & -> & Hrest & Hleft)%IH.
      exists (c :: pre), rest. split_and!; [done..|].
      intros [|c' pre1] pre2 Hpre Hne; simpl in Hpre.
      * by subst pre2.
      * injection Hpre as -> ->. by eapply Hleft.
Qed.

Lemma match_here_no_digit (s : list ascii) :
  starts_with_digit s = false → RE2.match_here versionRe s = None.
Proof.
  intros Hs. unfold RE2.match_here, versionRe.
  rewrite run_Cat, run_Capture. by apply run_plus_digits_none.
Qed.

Lemma search_skip (pre s : list ascii) :
  no_digits pre = true →
  RE2.search versionRe (pre ++ s) = RE2.search versionRe s.
Proof.
  induction pre as [|c pre IH]; [done|]. intros H.
  apply (andb_prop (negb (RE2.is_digit c)) (no_digits pre)) in H as [Hc Hpre].
  simpl app. rewrite search_cons, match_here_no_digit; [by apply IH|].
  by apply negb_true_iff.
Qed.

(** What a match of [versionRe] is made of. *)
Lemma match_here_version_inv (s : list ascii) (m : list string) :
  RE2.match_here versionRe s = Some m →
  ∃ m0 d1 d2 p,
    m = [m0; string_of_list_ascii d1; string_of_list_ascii d2; p] ∧
    d1 ≠ [] ∧ all_digits d1 = true ∧ d2 ≠ [] ∧ all_digits d2 = true ∧
    (p = "" ∨ ∃ d3, p = string_of_list_ascii ("."%char :: d3) ∧
                     d3 ≠ [] ∧ all_digits d3 = true).
Proof.
  unfold RE2.match_here, versionRe. rewrite run_Cat, run_Capture.
  intros (d1 & r1 & -> & Hne1 & Hd1 & H)%run_plus_digits_inv. cbn beta in H.
  rewrite run_Cat, run_Lit in H. destruct r1 as [|a r1]; [done|].
  destruct (Ascii.eqb a ".") eqn:Ha; [|done]. apply Ascii.eqb_eq in Ha as ->.
  rewrite run_Cat, run_Capture in H.
  apply run_plus_digits_inv in H as (d2 & r2 & -> & Hne2 & Hd2 & H). cbn beta in H.
  rewrite !consumed_app, run_Quest in H.
  destruct (RE2.run (RE2.Capture 3 _) _ _ _) as [y|] eqn:Hp.
  - injection H as ->. rewrite run_Capture, run_Cat, run_Lit in Hp.
    destruct r2 as [|b r2]; [done|].
    destruct (Ascii.eqb b ".") eqn:Hb; [|done]. apply Ascii.eqb_eq in Hb as ->.
    apply run_plus_digits_inv in Hp as (d3 & r3 & -> & Hne3 & Hd3 & [= <-]).
    rewrite (consumed_prefix ("."%char :: d3 ++ r3) ("."%char :: d3) r3) by app_eq.
    eexists _, d1, d2, _. split; [reflexivity|]. split_and!; [done..|].
    right. by exists d3.
  - injection H as <-. eexists _, d1, d2, _. split; [reflexivity|].
    split_and!; [done..|]. by left.
Qed.

Lemma string_of_list_ascii_app (a b : list ascii) :
  string_of_list_ascii (a ++ b) = string_of_list_ascii a +:+ string_of_list_ascii b.
Proof. induction a as [|c a IH]; [done|]. simpl. by rewrite IH. Qed.

(** ** [normalizeSemVer] with [versionRe] *)

Lemma normalizeSemVer_search (s : string) :
  normalizeSemVer s versionRe =
  match RE2.search versionRe (list_ascii_of_string s) with
  | None => Ok None
  | Some m =>
      major ← index m 1;
      minor ← index m 2;
      patch ← index m 3;
      Ok (Some (major +:+ "." +:+ minor +:+ (if decide (patch = "") then ".0" else patch)))
  end.
Proof. reflexivity. Qed.

Lemma normalizeSemVer_minor (pre d1 d2 t : list ascii) :
  no_digits pre = true →
  d1 ≠ [] → all_digits d1 = true → d2 ≠ [] → all_digits d2 = true →
  no_patch t = true →
  normalizeSemVer (string_of_list_ascii (pre ++ d1 ++ "."%char :: d2 ++ t)) versionRe =
  Ok (Some (string_of_list_ascii d1 +:+ "." +:+ string_of_list_ascii d2 +:+ ".0")).
Proof.
  intros Hpre Hne1 Hd1 Hne2 Hd2 Ht.
  rewrite normalizeSemVer_search, list_ascii_of_string_of_list_ascii, search_skip by done.
  by rewrite (search_here _ _ _ (match_here_minor d1 d2 t Hne1 Hd1 Hne2 Hd2 Ht)).
Qed.

Lemma normalizeSemVer_patch (pre d1 d2 d3 t : list ascii) :
  no_digits pre = true →
  d1 ≠ [] → all_digits d1 = true → d2 ≠ [] → all_digits d2 = true →
  d3 ≠ [] → all_digits d3 = true → starts_with_digit t = false →
  normalizeSemVer
    (string_of_list_ascii (pre ++ d1 ++ "."%char :: d2 ++ "."%char :: d3 ++ t)) versionRe =
  Ok (Some (string_of_list_ascii d1 +:+ "." +:+ string_of_list_ascii d2
            +:+ "." +:+ string_of_list_ascii d3)).
Proof.
  intros Hpre Hne1 Hd1 Hne2 Hd2 Hne3 Hd3 Ht.
  rewrite normalizeSemVer_search, list_ascii_of_string_of_list_ascii, search_skip by done.
  by rewrite (search_here _ _ _
                (match_here_patch d1 d2 d3 t Hne1 Hd1 Hne2 Hd2 Hne3 Hd3 Ht)).
Qed.

(** A normalised version is read back whole. *)
Lemma normalizeSemVer_normal (d1 d2 d3 : list ascii) :
  d1 ≠ [] → all_digits d1 = true → d2 ≠ [] → all_digits d2 = true →
  d3 ≠ [] → all_digits d3 = true →
  normalizeSemVer
    (string_of_list_ascii d1 +:+ "." +:+ string_of_list_ascii d2
     +:+ "." +:+ string_of_list_ascii d3) versionRe =
  Ok (Some (string_of_list_ascii d1 +:+ "." +:+ string_of_list_ascii d2
            +:+ "." +:+ string_of_list_ascii d3)).
Proof.
  intros Hne1 Hd1 Hne2 Hd2 Hne3 Hd3.
  rewrite <- (normalizeSemVer_patch [] d1 d2 d3 []) by done.
  f_equal. rewrite app_nil_r. simpl app.
  by rewrite string_of_list_ascii_app; simpl; rewrite string_of_list_ascii_app.
Qed.

(** C3. [normalizeSemVer] gives ["3.11.0"] for ["3.11"], ["3.11.4"] for
    ["3.11.4"] and no version for ["alpine"]; whenever the match has no
    patch component (an empty third group), and so whenever the input
    is [<digits>.<digits>], the patch of the output is the literal
    [0]. *)
Theorem normalizeSemVer_default_patch :
  normalizeSemVer "3.11" versionRe = Ok (Some "3.11.0") ∧
  normalizeSemVer "3.11.4" versionRe = Ok (Some "3.11.4") ∧
  normalizeSemVer "alpine" versionRe = Ok None ∧
  (∀ (s m0 major minor : string),
     FindStringSubmatch versionRe s = Some [m0; major; minor; ""] →
     normalizeSemVer s versionRe = Ok (Some (major +:+ "." +:+ minor +:+ ".0"))) ∧
  (∀ major minor : list ascii,
     major ≠ [] → all_digits major = true → minor ≠ [] → all_digits minor = true →
     normalizeSemVer (string_of_list_ascii (major ++ "."%char :: minor)) versionRe =
     Ok (Some (string_of_list_ascii major +:+ "." +:+ string_of_list_ascii minor +:+ ".0"))).
Proof.
  split_and!; [reflexivity..| |].
  - intros s m0 major minor Hm. unfold normalizeSemVer. by rewrite Hm.
  - intros major minor Hne1 Hd1 Hne2 Hd2.
    rewrite <- (normalizeSemVer_minor [] major minor []) by done.
    by rewrite app_nil_r.
Qed.

Lemma normalizeSemVer_default_patch_witness :
  normalizeSemVer "10.4" versionRe = Ok (Some "10.4.0").
Proof.
  apply (proj2 (proj2 (proj2 (proj2 normalizeSemVer_default_patch)))
           ["1"; "0"]%char ["4"]%char); done.
Defined.

(** C8. [normalizeSemVer] is idempotent on its outputs: a version that
    it produced is normalised to itself. *)
Theorem normalizeSemVer_idempotent (s v : string) :
  normalizeSemVer s versionRe = Ok (Some v) →
  normalizeSemVer v versionRe = Ok (Some v).
Proof.
  rewrite normalizeSemVer_search.
  destruct (RE2.search versionRe _) as [m|] eqn:Hs; [|done].
  apply search_leftmost in Hs as (pre & rest & _ & Hm & _).
  apply match_here_version_inv in Hm
    as (m0 & d1 & d2 & p & -> & Hne1 & Hd1 & Hne2 & Hd2 & Hp).
  cbn. intros [= <-]. destruct Hp as [->|(d3 & -> & Hne3 & Hd3)].
  - destruct (decide _); [|done].
    by apply (normalizeSemVer_normal d1 d2 ["0"%char]).
  - destruct (decide _); [done|].
    by apply (normalizeSemVer_normal d1 d2 d3).
Qed.

Lemma normalizeSemVer_idempotent_witness :
  normalizeSemVer "nginx:v3.11-alpine" versionRe = Ok (Some "3.11.0") ∧
  normalizeSemVer "3.11.0" versionRe = Ok (Some "3.11.0").
Proof.
  split; [reflexivity|].
  apply (normalizeSemVer_idempotent "nginx:v3.11-alpine"). reflexivity.
Defined.



(** ** Loops *)

Lemma forM_app {A S} (f : A → S → outcome S) (l1 l2 : list A) (s : S) :
  forM f (l1 ++ l2) s = (s' ← forM f l1 s; forM f l2 s').
Proof.
  revert s. induction l1 as [|x l1 IH]; intros s; [done|]. simpl.
  destruct (f x s) as [s'| |]; [apply IH|done..].
Qed.

Lemma bind_Ok {A B} (f : A → outcome B) (a : A) : (x ← Ok a; f x) = f a.
Proof. reflexivity. Qed.

(** A loop whose body always returns is a fold. *)
Lemma forM_foldl {A S} (f : A → S → outcome S) (g : S → A → S) (l : list A) (s : S) :
  (∀ x s, f x s = Ok (g s x)) → forM f l s = Ok (foldl g s l).
Proof.
  intros Hf. revert s. induction l as [|x l IH]; intros s; [done|].
  simpl. rewrite Hf. apply IH.
Qed.

(** Appending one element per step builds the list of the elements. *)
Lemma foldl_snoc {A B} (f : A → list B) (l : list A) (acc : list B) :
  foldl (λ acc x, acc ++ f x) acc l = acc ++ (l ≫= f).
Proof.
  revert acc. induction l as [|x l IH]; intros acc; simpl.
  - by rewrite app_nil_r.
  - by rewrite IH, app_assoc.
Qed.

(** ** A [range] visits each entry once *)

Section Range.
Context `{order : MapOrder} {V : Type}.
Implicit Types (m : gmap string V) (site : RangeSite).

Lemma elem_of_range site m k v : (k, v) ∈ range site m ↔ m !! k = Some v.
Proof. by rewrite range_perm, elem_of_map_to_list. Qed.

Lemma NoDup_range_keys site m : NoDup (range site m).*1.
Proof. rewrite range_perm. apply NoDup_fst_map_to_list. Qed.

Lemma NoDup_range site m : NoDup (range site m).
Proof. eapply NoDup_fmap_1, NoDup_range_keys. Qed.

Lemma range_keys site m k : k ∈ (range site m).*1 ↔ is_Some (m !! k).
Proof.
  rewrite list_elem_of_fmap. split.
  - intros ([k' v] & -> & Hin). apply elem_of_range in Hin. by exists v.
  - intros [v Hv]. exists (k, v). split; [done|]. by apply elem_of_range.
Qed.

Lemma range_empty site : range site (∅ : gmap string V) = [].
Proof. apply Permutation_nil_r. by rewrite range_perm, map_to_list_empty. Qed.

Lemma range_singleton site k v : range site ({[k := v]} : gmap string V) = [(k, v)].
Proof. apply Permutation_singleton_r. by rewrite range_perm, map_to_list_singleton. Qed.
End Range.

(** ** The aggregate: stores and their last writer *)

Lemma entry_store_version (ns app v ns' app' : string)
    (u : gmap string (gmap string string)) :
  entry ns' app' (store_version ns app v u) =
  if decide (ns = ns' ∧ app = app') then Some v else entry ns' app' u.
Proof.
  unfold entry, store_version. destruct (decide (ns = ns')) as [->|Hns].
  - rewrite lookup_insert_eq. simpl. destruct (decide (app = app')) as [->|Happ].
    + rewrite lookup_insert_eq. by rewrite decide_True.
    + rewrite lookup_insert_ne by done. rewrite decide_False by (by intros [_ ?]).
      by destruct (u !! ns').
  - rewrite lookup_insert_ne by done. by rewrite decide_False by (by intros [? _]).
Qed.

Lemma last_hit_cons (app a v : string) (ws : list (string * string)) :
  last_hit app ((a, v) :: ws) =
  match last_hit app ws with
  | Some v' => Some v'
  | None => if decide (a = app) then Some v else None
  end.
Proof.
  unfold last_hit. rewrite filter_cons. simpl. destruct (decide (a = app)).
  - rewrite last_cons. by destruct (last _).
  - by destruct (last _).
Qed.

Lemma last_hit_app (app : string) (ws1 ws2 : list (string * string)) :
  last_hit app (ws1 ++ ws2) =
  match last_hit app ws2 with
  | Some v => Some v
  | None => last_hit app ws1
  end.
Proof.
  induction ws1 as [|[a v] ws1 IH]; simpl.
  - by destruct (last_hit app ws2).
  - rewrite !last_hit_cons, IH. by destruct (last_hit app ws2).
Qed.

Lemma last_hit_elem (app v : string) (ws : list (string * string)) :
  last_hit app ws = Some v → (app, v) ∈ ws.
Proof.
  induction ws as [|[a v'] ws IH]; [done|]. rewrite last_hit_cons.
  destruct (last_hit app ws) as [v''|].
  - intros [= ->]. right. by apply IH.
  - destruct (decide (a = app)) as [->|]; [|done]. intros [= ->]. left.
Qed.

(** After a sequence of stores into [ns], an entry of [ns] holds what
    its last store wrote; the other namespaces are as before. *)
Lemma entry_foldl_store (ns : string) (ws : list (string * string)) :
  ∀ (u : gmap string (gmap string string)) (ns' app : string),
    entry ns' app (foldl (λ u w, store_version ns w.1 w.2 u) u ws) =
    if decide (ns = ns') then
      match last_hit app ws with
      | Some v => Some v
      | None => entry ns' app u
      end
    else entry ns' app u.
Proof.
  induction ws as [|[a v] ws IH]; intros u ns' app; simpl.
  - by destruct (decide _).
  - rewrite IH, last_hit_cons, entry_store_version.
    destruct (decide (ns = ns')) as [->|]; [|by rewrite decide_False by (by intros [? _])].
    destruct (last_hit app ws); [done|].
    destruct (decide (a = app)) as [->|].
    + by rewrite decide_True.
    + by rewrite decide_False by (by intros [_ ?]).
Qed.

(** ** The matching stage *)

Section Matching.
Context `{regexp : RegexpPkg} `{order : MapOrder}.
Variable re : Regexp.
Hypothesis re_groups : NumSubexp re = 3.

(** With three groups in the expression, [m[1]], [m[2]] and [m[3]]
    are in range. *)
Lemma normalizeSemVer_returns (s : string) : ∃ o, normalizeSemVer s re = Ok o.
Proof.
  unfold normalizeSemVer. destruct (FindStringSubmatch re s) as [m|] eqn:Hm; [|by eexists].
  apply FindStringSubmatch_length in Hm. rewrite re_groups in Hm.
  destruct m as [|m0 [|m1 [|m2 [|m3 [|]]]]]; try done. by eexists.
Qed.

Lemma hit_resolves (img : string) (rule : Rule) (app v : string) :
  hit re img rule = Some (app, v) ↔ app = ApplicationName rule ∧ resolves re img rule v.
Proof.
  unfold hit, resolves. destruct (MatchString _ _); [|by split; [|intros [_ [? _]]]].
  destruct (normalizeSemVer _ _) as [[v'|]| |];
    (split; [by intros [= <- <-]|by intros [-> [_ [= ->]]]]).
Qed.

Lemma match_rule_hit (ns img : string) (rule : Rule)
    (u : gmap string (gmap string string)) :
  match_rule re ns img rule u =
  Ok (match hit re img rule with
      | Some w => store_version ns w.1 w.2 u
      | None => u
      end).
Proof.
  unfold match_rule, hit. destruct (MatchString _ _); [|done].
  destruct (normalizeSemVer_returns (FindString (VersionRegex rule) img)) as [o ->].
  by destruct o.
Qed.

Lemma match_image_hits (rules : list Rule) (ns img : string) :
  ∀ u, match_image rules re ns img u =
       Ok (foldl (λ u w, store_version ns w.1 w.2 u) u (omap (hit re img) rules)).
Proof.
  unfold match_image. induction rules as [|rule rules IH]; intros u; [done|].
  simpl. rewrite match_rule_hit. simpl.
  destruct (hit re img rule); simpl; apply IH.
Qed.

Lemma match_namespace_hits (rules : list Rule) (ns : string) (images : list string) :
  ∀ u, match_namespace rules re ns images u =
       Ok (foldl (λ u w, store_version ns w.1 w.2 u) u (hits re rules images)).
Proof.
  unfold match_namespace, hits. induction images as [|img images IH]; intros u; [done|].
  csimpl. rewrite match_image_hits. simpl. by rewrite IH, foldl_app.
Qed.

(** The loop over the namespaces, from any aggregate and for any visit
    that comes to a namespace at most once. *)
Lemma match_visits (rules : list Rule) (l : list (string * list string)) :
  ∀ u0, NoDup l.*1 →
    ∃ u, forM (λ '(ns, images), match_namespace rules re ns images) l u0 = Ok u ∧
      ∀ ns app,
        (∀ images, (ns, images) ∈ l →
           entry ns app u = match last_hit app (hits re rules images) with
                            | Some v => Some v
                            | None => entry ns app u0
                            end) ∧
        (ns ∉ l.*1 → entry ns app u = entry ns app u0).
Proof.
  induction l as [|[ns1 images1] l IH]; intros u0 Hnd.
  - exists u0. split; [done|]. intros ns app. split; [|done].
    intros images Hin. by apply elem_of_nil in Hin.
  - apply NoDup_cons in Hnd as [Hns1 Hnd]. simpl.
    rewrite match_namespace_hits. simpl.
    destruct (IH (foldl (λ u w, store_version ns1 w.1 w.2 u) u0
                    (hits re rules images1)) Hnd) as (u & Hu & Hentries).
    exists u. split; [done|]. intros ns app.
    destruct (Hentries ns app) as [Hin Hout]. split.
    + intros images [[= -> ->]|Hl]%elem_of_cons.
      * rewrite Hout by done. rewrite entry_foldl_store. by rewrite decide_True.
      * rewrite (Hin _ Hl), entry_foldl_store.
        rewrite decide_False; [done|]. intros ->. apply Hns1.
        apply list_elem_of_fmap. by exists (ns, images).
    + intros Hnotin. apply not_elem_of_cons in Hnotin as [Hne Hnotin].
      rewrite Hout by done. rewrite entry_foldl_store. by rewrite decide_False.
Qed.

(** The matching stage returns, and an entry of the aggregate is the
    last store among those of the images of its namespace. *)
Lemma match_stage_entries (rules : list Rule) (imagesByNs : gmap string (list string)) :
  ∃ u, match_stage rules re imagesByNs = Ok u ∧
    ∀ ns app, entry ns app u =
              (imagesByNs !! ns ≫= λ images, last_hit app (hits re rules images)).
Proof.
  destruct (match_visits rules (range range_imagesByNs imagesByNs) ∅
              (NoDup_range_keys _ _)) as (u & Hu & Hentries).
  exists u. split; [done|]. intros ns app. destruct (Hentries ns app) as [Hin Hout].
  destruct (imagesByNs !! ns) as [images|] eqn:Hns; simpl.
  - rewrite (Hin images) by by apply elem_of_range.
    by destruct (last_hit _ _).
  - rewrite Hout; [done|]. rewrite range_keys, Hns. by intros [? ?].
Qed.
End Matching.

(** ** The report stage *)

Section Report.
Context `{order : MapOrder}.

Lemma foldl_ext_fun {A B} (f g : A → B → A) (l : list B) (a : A) :
  (∀ a x, f a x = g a x) → foldl f a l = foldl g a l.
Proof.
  intros Hfg. revert a. induction l as [|x l IH]; intros a; [done|].
  simpl. by rewrite Hfg, IH.
Qed.

Lemma bind_singleton_fmap {A B} (f : A → B) (l : list A) :
  l ≫= (λ x, [f x]) = f <$> l.
Proof. induction l as [|x l IH]; [done|]. csimpl. by f_equal. Qed.

Lemma fmap_list_bind {A B C} (f : B → C) (g : A → list B) (l : list A) :
  f <$> (l ≫= g) = l ≫= (λ x, f <$> g x).
Proof. induction l as [|x l IH]; [done|]. csimpl. by rewrite fmap_app, IH. Qed.

(** The report has one component for each entry of each namespace. *)
Lemma report_stage_bind (u : gmap string (gmap string string)) :
  report_stage u =
  range range_uniqImagesByNs u ≫= λ '(ns, versionedImage),
    (λ '(v, i), {| ChartName := i; Version := v; Namespace := ns |})
      <$> range (range_versionedImage ns) versionedImage.
Proof.
  unfold report_stage.
  rewrite <- (app_nil_l (_ ≫= _)), <- foldl_snoc.
  apply foldl_ext_fun. intros acc [ns m].
  rewrite <- bind_singleton_fmap, <- foldl_snoc.
  apply foldl_ext_fun. by intros acc' [v i].
Qed.

Lemma elem_of_report_stage (u : gmap string (gmap string string)) (c : HelmChartInfo) :
  c ∈ report_stage u ↔ entry (Namespace c) (Version c) u = Some (ChartName c).
Proof.
  rewrite report_stage_bind, list_elem_of_bind. unfold entry. split.
  - intros ([ns m] & Hc & Hns). apply list_elem_of_fmap in Hc as ([v i] & -> & Hvi).
    apply elem_of_range in Hns, Hvi. simpl. by rewrite Hns.
  - destruct (u !! Namespace c) as [m|] eqn:Hns; [simpl|done]. intros Hv.
    exists (Namespace c, m). split; [|by apply elem_of_range].
    apply list_elem_of_fmap. exists (Version c, ChartName c).
    split; [by destruct c|by apply elem_of_range].
Qed.

Lemma NoDup_report_stage_keys (u : gmap string (gmap string string)) :
  NoDup ((λ c, (Namespace c, Version c)) <$> report_stage u).
Proof.
  rewrite report_stage_bind, fmap_list_bind. apply NoDup_bind.
  - intros [ns1 m1] [ns2 m2] [ns v] Hin1 Hin2 Hy1 Hy2. simpl in *.
    apply list_elem_of_fmap in Hy1 as (c1 & [= -> ->] & Hc1).
    apply list_elem_of_fmap in Hy2 as (c2 & [= Hns Hv] & Hc2).
    apply list_elem_of_fmap in Hc1 as ([v1 i1] & -> & _).
    apply list_elem_of_fmap in Hc2 as ([v2 i2] & -> & _).
    simpl in *. subst ns2. apply elem_of_range in Hin1, Hin2. congruence.
  - intros [ns m] _. simpl. rewrite <- list_fmap_compose.
    apply (NoDup_fmap_2_strong _); [|apply NoDup_range].
    intros [v1 i1] [v2 i2] Hin1 Hin2 [= ->]. apply elem_of_range in Hin1, Hin2.
    congruence.
  - apply NoDup_range.
Qed.
End Report.

Lemma last_hit_is_Some (app v : string) (ws : list (string * string)) :
  (app, v) ∈ ws → is_Some (last_hit app ws).
Proof.
  induction ws as [|[a v'] ws IH]; [by intros ?%elem_of_nil|].
  rewrite last_hit_cons. intros [[= <- <-]|Hin]%elem_of_cons.
  - destruct (last_hit app ws); [done|]. by rewrite decide_True.
  - destruct (IH Hin) as [v'' ->]. done.
Qed.

Lemma last_hit_None (app : string) (ws : list (string * string)) :
  (∀ v, (app, v) ∉ ws) → last_hit app ws = None.
Proof.
  intros Hnone. destruct (last_hit app ws) as [v|] eqn:Hlast; [|done].
  by apply last_hit_elem, Hnone in Hlast.
Qed.

(** The components of an aggregate are its entries, one for a
    namespace and an application. *)
Lemma elem_of_components (u : gmap string (gmap string string)) (ns app v : string) :
  (ns, app, v) ∈ components u ↔ entry ns app u = Some v.
Proof.
  unfold components, entry. rewrite list_elem_of_bind. split.
  - intros ([ns' m] & Hc & Hns). apply list_elem_of_fmap in Hc as ([app' v'] & [= -> -> ->] & Hv).
    apply elem_of_map_to_list in Hns, Hv. by rewrite Hns.
  - destruct (u !! ns) as [m|] eqn:Hns; [simpl|done]. intros Hv.
    exists (ns, m). split; [|by apply elem_of_map_to_list].
    apply list_elem_of_fmap. exists (app, v). split; [done|by apply elem_of_map_to_list].
Qed.

Lemma NoDup_components (u : gmap string (gmap string string)) :
  NoDup (components u).*1.
Proof.
  unfold components.
  assert (∀ (l : list (string * gmap string string)),
            (l ≫= λ '(ns, versionedImage),
               (λ '(app, v), (ns, app, v)) <$> map_to_list versionedImage).*1 =
            l ≫= λ '(ns, versionedImage), (λ kv, (ns, kv.1)) <$> map_to_list versionedImage)
    as ->.
  { intros l. induction l as [|[ns m] l IH]; [done|]. csimpl.
    rewrite fmap_app, IH. f_equal. rewrite <- list_fmap_compose.
    apply list_fmap_ext. by intros _ [app v] _. }
  apply NoDup_bind.
  - intros [ns1 m1] [ns2 m2] [ns app] Hin1 Hin2 Hy1 Hy2.
    apply list_elem_of_fmap in Hy1 as (kv1 & [= -> ->] & _).
    apply list_elem_of_fmap in Hy2 as (kv2 & [= <- _] & _).
    apply elem_of_map_to_list in Hin1, Hin2. congruence.
  - intros [ns m] _.
    apply (NoDup_fmap_2_strong _); [|apply NoDup_map_to_list].
    intros [a1 v1] [a2 v2] Hin1 Hin2 [= ->].
    apply elem_of_map_to_list in Hin1, Hin2. simpl in *. congruence.
  - apply NoDup_map_to_list.
Qed.

(** ** Claims on matching and aggregation *)

Section Aggregation.
Context `{regexp : RegexpPkg} `{order : MapOrder}.
Variable re : Regexp.
Hypothesis re_groups : NumSubexp re = 3.

(** The loop over the rules of [main] as it is written, without the
    [break] of [ClusterWide.match_image]: every rule whose detection
    pattern matches the image and whose version is resolved stores its
    entry, in declaration order, so an entry holds the version of the
    last such rule with its application name.  When an earlier rule [A]
    and a later rule [B] both resolve a version, both have an entry
    afterwards. *)
Lemma every_matching_rule_stores (rules : list Rule) (ns img : string)
    (u : gmap string (gmap string string)) :
  ∃ u', match_image rules re ns img u = Ok u' ∧
    (∀ app, entry ns app u' =
            match last_hit app (omap (hit re img) rules) with
            | Some v => Some v
            | None => entry ns app u
            end) ∧
    (∀ pre A mid B post vA vB,
       rules = pre ++ A :: mid ++ B :: post →
       resolves re img A vA → resolves re img B vB →
       is_Some (entry ns (ApplicationName A) u') ∧
       is_Some (entry ns (ApplicationName B) u') ∧
       ((∀ r v, r ∈ post → resolves re img r v →
                ApplicationName r ≠ ApplicationName B) →
        entry ns (ApplicationName B) u' = Some vB)).
Proof.
  eexists. split; [apply (match_image_hits re re_groups)|].
  assert (∀ app, entry ns app
            (foldl (λ u w, store_version ns w.1 w.2 u) u (omap (hit re img) rules)) =
            match last_hit app (omap (hit re img) rules) with
            | Some v => Some v
            | None => entry ns app u
            end) as Hentry.
  { intros app. rewrite entry_foldl_store. by rewrite decide_True. }
  split; [done|]. intros pre A mid B post vA vB -> HA HB.
  assert (hit re img A = Some (ApplicationName A, vA)) as HhA by by apply hit_resolves.
  assert (hit re img B = Some (ApplicationName B, vB)) as HhB by by apply hit_resolves.
  rewrite !Hentry. split_and!.
  - destruct (last_hit_is_Some (ApplicationName A) vA
                (omap (hit re img) (pre ++ A :: mid ++ B :: post))) as [v ->]; [|done].
    apply list_elem_of_omap. exists A. split; [|done].
    apply elem_of_app. right. left.
  - destruct (last_hit_is_Some (ApplicationName B) vB
                (omap (hit re img) (pre ++ A :: mid ++ B :: post))) as [v ->]; [|done].
    apply list_elem_of_omap. exists B. split; [|done].
    apply elem_of_app. right. right. apply elem_of_app. right. left.
  - intros Hpost.
    replace (pre ++ A :: mid ++ B :: post) with ((pre ++ A :: mid) ++ B :: post)
      by (by rewrite <- app_assoc).
    rewrite omap_app, last_hit_app. simpl. rewrite HhB, last_hit_cons.
    rewrite last_hit_None, decide_True; [done..|].
    intros v (r & Hr & Hhit)%list_elem_of_omap.
    apply hit_resolves in Hhit as [Hname Hres]. by eapply Hpost.
Qed.

(** C4. A rule that matches an image but resolves no version leaves
    the aggregate as it was: [normalizeSemVer] returns [None] and does
    not panic, and nothing is stored in its place.  Hence every
    component of the report comes from an image of its namespace and a
    rule on which a version was resolved, and carries that version. *)
Theorem absent_version_is_dropped :
  (∀ s, ∃ o, normalizeSemVer s re = Ok o) ∧
  (∀ ns img rule (u : gmap string (gmap string string)),
     MatchString (DetectionRegex rule) img = true →
     normalizeSemVer (FindString (VersionRegex rule) img) re = Ok None →
     match_rule re ns img rule u = Ok u) ∧
  (∀ rules (imagesByNs : gmap string (list string)),
     ∃ u, match_stage rules re imagesByNs = Ok u ∧
       ∀ c, c ∈ report_stage u →
         ∃ images img rule,
           imagesByNs !! Namespace c = Some images ∧ img ∈ images ∧
           rule ∈ rules ∧ ApplicationName rule = Version c ∧
           resolves re img rule (ChartName c)).
Proof.
  split_and!.
  - apply (normalizeSemVer_returns re re_groups).
  - intros ns img rule u Hmatch Hnone. unfold match_rule. by rewrite Hmatch, Hnone.
  - intros rules imagesByNs.
    destruct (match_stage_entries re re_groups rules imagesByNs) as (u & Hu & Hentries).
    exists u. split; [done|]. intros c Hc%elem_of_report_stage.
    rewrite Hentries in Hc.
    destruct (imagesByNs !! Namespace c) as [images|]; [simpl in Hc|done].
    apply last_hit_elem, list_elem_of_bind in Hc as (img & Hhit & Himg).
    apply list_elem_of_omap in Hhit as (rule & Hrule & Hhit).
    apply hit_resolves in Hhit as [Hname Hres]. by exists images, img, rule.
Qed.

(** C5. The aggregate that the matching stage returns holds at most
    one detected component for a namespace and an application, and it
    is the one of the last store: the component is there exactly when
    some image of the namespace had a rule store under that name, with
    the version of the last such store in the order of the images.  So
    when several images of a namespace resolve a version for the same
    application, the later image overwrites the earlier one.  Each step
    of the aggregation (one rule on one image, from any aggregate)
    keeps this: it returns an aggregate with at most one component per
    pair, in which the component of its own pair has the version just
    resolved and every other component is as before; a step that
    resolves nothing changes nothing. *)
Theorem one_entry_per_application :
  (∀ rules (imagesByNs : gmap string (list string)),
     ∃ u, match_stage rules re imagesByNs = Ok u ∧
       NoDup (components u).*1 ∧
       (∀ ns app v, (ns, app, v) ∈ components u ↔
          ∃ images, imagesByNs !! ns = Some images ∧
                    last_hit app (hits re rules images) = Some v) ∧
       (∀ ns earlier img later rule v,
          imagesByNs !! ns = Some (earlier ++ img :: later) →
          rule ∈ rules → resolves re img rule v →
          (∀ r v', r ∈ rules → ApplicationName r = ApplicationName rule →
                   resolves re img r v' → v' = v) →
          (∀ img' r v', img' ∈ later → r ∈ rules →
                        ApplicationName r = ApplicationName rule →
                        ¬ resolves re img' r v') →
          (ns, ApplicationName rule, v) ∈ components u)) ∧
  (∀ ns img rule (u : gmap string (gmap string string)),
     ∃ u', match_rule re ns img rule u = Ok u' ∧
       NoDup (components u').*1 ∧
       (∀ v, resolves re img rule v →
          ∀ ns' app' v', (ns', app', v') ∈ components u' ↔
            (ns', app', v') = (ns, ApplicationName rule, v) ∨
            ((ns', app') ≠ (ns, ApplicationName rule) ∧
             (ns', app', v') ∈ components u)) ∧
       ((∀ v, ¬ resolves re img rule v) → u' = u)).
Proof.
  split.
  - intros rules imagesByNs.
    destruct (match_stage_entries re re_groups rules imagesByNs) as (u & Hu & Hentries).
    assert (∀ ns app v, (ns, app, v) ∈ components u ↔
              ∃ images, imagesByNs !! ns = Some images ∧
                        last_hit app (hits re rules images) = Some v) as Hcomp.
    { intros ns app v. rewrite elem_of_components, Hentries.
      destruct (imagesByNs !! ns) as [images|]; simpl.
      - split; [by exists images|]. by intros (images' & [= <-] & Hlast).
      - split; [done|]. by intros (images' & [=] & _). }
    exists u. split_and!; [done|apply NoDup_components|done|].
    intros ns earlier img later rule v Himages Hrule Hres Huniq Hlater.
    apply Hcomp. exists (earlier ++ img :: later). split; [done|].
    unfold hits. rewrite bind_app, last_hit_app, bind_cons, last_hit_app.
    fold (hits re rules later).
    rewrite (last_hit_None _ (hits re rules later)).
    + destruct (last_hit_is_Some (ApplicationName rule) v (omap (hit re img) rules))
        as [v' Hv'].
      { apply list_elem_of_omap. exists rule. split; [done|]. by apply hit_resolves. }
      rewrite Hv'. f_equal.
      apply last_hit_elem, list_elem_of_omap in Hv' as (r & Hr & Hhit).
      apply hit_resolves in Hhit as [Hname Hres']. by eapply Huniq.
    + intros v' (img' & Hhit & Himg')%list_elem_of_bind.
      apply list_elem_of_omap in Hhit as (r & Hr & Hhit).
      apply hit_resolves in Hhit as [Hname Hres']. by eapply Hlater.
  - intros ns img rule u. rewrite (match_rule_hit re re_groups).
    eexists. split_and!; [done|apply NoDup_components| |].
    + intros v Hres ns' app' v'.
      assert (hit re img rule = Some (ApplicationName rule, v)) as ->
        by by apply hit_resolves.
      simpl. rewrite !elem_of_components, entry_store_version.
      destruct (decide (ns = ns' ∧ ApplicationName rule = app')) as [[<- <-]|Hne].
      * split; [intros [= ->]; by left|].
        intros [[= ->]|[Hne _]]; [done|]. by destruct Hne.
      * split; [intros Hentry; right; split; [|done]|].
        -- intros [= -> ->]. by apply Hne.
        -- intros [[= -> -> ->]|[_ Hentry]]; [|done]. by destruct Hne.
    + intros Hnone. destruct (hit re img rule) as [[app v]|] eqn:Hhit; [|done].
      apply hit_resolves in Hhit as [_ Hres]. by destruct (Hnone v).
Qed.
End Aggregation.

(** C1, against the code.  The rule [redis] is declared before the rule
    [cache], and the detection patterns of both match the image
    ["redis:7.2.4"].  The loop over the rules of [main] does not stop
    at [redis]: the aggregate has an entry of [cache] as well, so it is
    not what the first matching rule alone gives.  The same loop of
    the other entry point, with its [break], stops at [redis] on the
    same rules and image. *)
Theorem later_rule_also_stores :
  MatchString (DetectionRegex Fixture.redis_rule) "redis:7.2.4" = true ∧
  MatchString (DetectionRegex Fixture.cache_rule) "redis:7.2.4" = true ∧
  match_image [Fixture.redis_rule; Fixture.cache_rule] versionRe "ns1" "redis:7.2.4" ∅ =
    Ok {[ "ns1" := {[ "redis" := "7.2.4"; "cache" := "7.2.0" ]} ]} ∧
  match_image [Fixture.redis_rule; Fixture.cache_rule] versionRe "ns1" "redis:7.2.4" ∅ ≠
    match_rule versionRe "ns1" "redis:7.2.4" Fixture.redis_rule ∅ ∧
  match_rule versionRe "ns1" "redis:7.2.4" Fixture.redis_rule ∅ =
    Ok {[ "ns1" := {[ "redis" := "7.2.4" ]} ]} ∧
  ClusterWide.match_image [Fixture.redis_rule; Fixture.cache_rule] versionRe
      "redis:7.2.4" [] =
    Ok [{| ChartName := "redis"; Version := "7.2.4"; Namespace := "***masked***" |}].
Proof.
  split_and!; [reflexivity| reflexivity| vm_compute; reflexivity| |
               vm_compute; reflexivity| reflexivity].
  intros Heq.
  assert (∀ o o' : outcome (gmap string (gmap string string)),
            o = o' → (a ← o; Ok (entry "ns1" "cache" a)) = (a ← o'; Ok (entry "ns1" "cache" a)))
    as Hcong by (by intros o o' ->).
  apply Hcong in Heq. vm_compute in Heq. discriminate.
Qed.

Lemma absent_version_is_dropped_witness :
  NumSubexp versionRe = 3 ∧
  MatchString (DetectionRegex Fixture.tagless_rule) "nginx:1.25.3" = true ∧
  normalizeSemVer (FindString (VersionRegex Fixture.tagless_rule) "nginx:1.25.3") versionRe =
    Ok None ∧
  match_rule versionRe "ns1" "nginx:1.25.3" Fixture.tagless_rule ∅ = Ok ∅.
Proof.
  split_and!; [reflexivity..|].
  apply (proj1 (proj2 (@absent_version_is_dropped RE2.pkg listed_order versionRe eq_refl)));
    reflexivity.
Defined.

Lemma one_entry_per_application_witness :
  NumSubexp versionRe = 3 ∧
  resolves versionRe "redis:6.0.1" Fixture.redis_rule "6.0.1" ∧
  resolves versionRe "redis:7.2.4" Fixture.redis_rule "7.2.4" ∧
  ∃ u, match_stage [Fixture.redis_rule] versionRe
         {[ "ns1" := ["redis:6.0.1"; "redis:7.2.4"] ]} = Ok u ∧
       NoDup (components u).*1 ∧
       ("ns1", "redis", "7.2.4") ∈ components u.
Proof.
  assert (resolves versionRe "redis:7.2.4" Fixture.redis_rule "7.2.4") as Hres
    by (split; reflexivity).
  split_and!; [reflexivity|split; reflexivity|exact Hres|].
  destruct (proj1 (@one_entry_per_application RE2.pkg listed_order versionRe eq_refl)
              [Fixture.redis_rule] {[ "ns1" := ["redis:6.0.1"; "redis:7.2.4"] ]})
    as (u & Hu & Hnodup & _ & Hlast).
  exists u. split_and!; [exact Hu|exact Hnodup|].
  apply (Hlast "ns1" ["redis:6.0.1"] "redis:7.2.4" [] Fixture.redis_rule "7.2.4").
  - apply lookup_singleton_eq.
  - apply list_elem_of_singleton. reflexivity.
  - exact Hres.
  - intros r v' ->%list_elem_of_singleton _ [_ Hv]. vm_compute in Hv. by injection Hv.
  - intros img' r v' []%elem_of_nil.
Defined.

(** ** The scenario of the specification, end to end *)

Section Scenario.
Context `{order : MapOrder}.

Lemma to_slices_singleton (ns img : string) :
  to_slices {[ ns := {[ img := 1%Z ]} ]} = {[ ns := [img] ]}.
Proof.
  unfold to_slices. rewrite range_singleton. simpl. rewrite range_singleton. simpl.
  unfold append_image. by rewrite lookup_empty.
Qed.

Lemma report_stage_singleton (ns app v : string) :
  report_stage {[ ns := {[ app := v ]} ]} =
  [{| ChartName := v; Version := app; Namespace := ns |}].
Proof.
  unfold report_stage. rewrite range_singleton. simpl. by rewrite range_singleton.
Qed.

(** C2, as the code has it.  With the rule [redis] and the image
    ["redis:7.2.4"] observed in two workloads of ["ns1"], [main]
    reports one component, in namespace ["ns1"], in whatever order the
    maps are visited; but the loop of the report stage binds the key of
    an entry (the application) to [v] and its value (the version) to
    [i], so [ChartName] is ["7.2.4"] and [Version] is ["redis"]. *)
Theorem redis_scenario_report :
  LoadRules "/etc/keepup/redis.yaml" = Ok [Fixture.redis_rule] ∧
  CollectNamespaceImages Fixture.cluster = Ok {[ "ns1" := ["redis:7.2.4"] ]} ∧
  match_stage [Fixture.redis_rule] versionRe {[ "ns1" := ["redis:7.2.4"] ]} =
    Ok {[ "ns1" := {[ "redis" := "7.2.4" ]} ]} ∧
  main Fixture.cluster "/etc/keepup/redis.yaml" =
    Ok {| ClusterName := "minikube";
          KubeVersion := "v1.30.0";
          HelmCharts := [{| ChartName := "7.2.4";
                            Version := "redis";
                            Namespace := "ns1" |}] |}.
Proof.
  assert (LoadRules "/etc/keepup/redis.yaml" = Ok [Fixture.redis_rule]) as Hrules
    by reflexivity.
  assert (forM (collect_namespace Fixture.cluster) ["ns1"] ∅ =
          Ok {[ "ns1" := {[ "redis:7.2.4" := 1%Z ]} ]}) as Hacc
    by (vm_compute; reflexivity).
  assert (CollectNamespaceImages Fixture.cluster = Ok {[ "ns1" := ["redis:7.2.4"] ]})
    as Himages.
  { unfold CollectNamespaceImages.
    change (Namespaces_List Fixture.cluster) with (Ok ["ns1"] : outcome (list string)).
    by rewrite bind_Ok, Hacc, bind_Ok, to_slices_singleton. }
  assert (match_stage [Fixture.redis_rule] versionRe {[ "ns1" := ["redis:7.2.4"] ]} =
          Ok {[ "ns1" := {[ "redis" := "7.2.4" ]} ]}) as Hstage.
  { unfold match_stage. rewrite range_singleton. vm_compute. reflexivity. }
  split_and!; [done..|].
  unfold main. rewrite Hrules. unfold fatal. rewrite bind_Ok.
  rewrite MustCompile_versionRe, bind_Ok, Himages, bind_Ok, Hstage, bind_Ok.
  by rewrite report_stage_singleton.
Qed.
End Scenario.

(** ** Loading the rules *)

Section LoadRules.
Context `{regexp : RegexpPkg} `{os : OS} `{yaml : YamlPkg}.

Lemma compiled_not_rejected (r : DetectionRuleYaml) (rule : Rule) (msg : string) :
  compiled r rule → rejected r msg → False.
Proof.
  intros (_ & Hd & Hv) [(err & Hd' & _)|(detectRe & err & _ & Hv' & _)]; congruence.
Qed.

Lemma LoadRules_body_cases (r : DetectionRuleYaml) (acc : list Rule) :
  (∃ rule, compiled r rule ∧ LoadRules_body r acc = Ok (acc ++ [rule])) ∨
  (∃ msg, rejected r msg ∧ LoadRules_body r acc = Error msg).
Proof.
  unfold LoadRules_body, compiled, rejected.
  destruct (Compile (Yaml.DetectionRegex r)) as [detectRe|err] eqn:Hd.
  - destruct (Compile (Yaml.VersionRegex r)) as [versionRe'|err] eqn:Hv.
    + left. by eexists {| ApplicationName := _ |}.
    + right. eexists. split; [|done]. right. by exists detectRe, err.
  - right. eexists. split; [|done]. left. by exists err.
Qed.

Lemma forM_cons {A S} (f : A → S → outcome S) (x : A) (l : list A) (s : S) :
  forM f (x :: l) s = (s' ← f x s; forM f l s').
Proof. reflexivity. Qed.

(** The loop of [LoadRules]: the rules in the order of the document,
    or the error of the first rule with a pattern that does not
    compile. *)
Lemma LoadRules_loop (l : list DetectionRuleYaml) :
  ∀ acc,
    (∃ rules, forM LoadRules_body l acc = Ok (acc ++ rules) ∧ Forall2 compiled l rules) ∨
    (∃ pre bad post msg,
       l = pre ++ bad :: post ∧ Forall (λ r, ∃ rule, compiled r rule) pre ∧
       rejected bad msg ∧ forM LoadRules_body l acc = Error msg).
Proof.
  induction l as [|r l IH]; intros acc.
  - left. exists []. by rewrite app_nil_r.
  - rewrite forM_cons.
    destruct (LoadRules_body_cases r acc) as [(rule & Hrule & ->)|(msg & Hmsg & ->)].
    + cbn [mbind outcome_mbind outcome_bind].
      destruct (IH (acc ++ [rule]))
        as [(rules & -> & Hall)|(pre & bad & post & msg & -> & Hpre & Hbad & ->)].
      * left. exists (rule :: rules). split; [by rewrite <- app_assoc|].
        by constructor.
      * right. exists (r :: pre), bad, post, msg. split_and!; [done| |done..].
        constructor; [by exists rule|done].
    + right. by exists [], r, l, msg.
Qed.

(** C7. [LoadRules] returns the rules in the order of the document,
    each with its two patterns compiled; and if a pattern of some rule
    does not compile, it returns no rules but an error, whose message
    names the application of the first rule that has such a pattern. *)
Theorem LoadRules_order_and_errors (path data : string) (rf : DetectionConfigFile) :
  ReadFile path = inl data → Unmarshal data = inl rf →
  ((∀ r, r ∈ DockerImages rf → ∃ rule, compiled r rule) →
   ∃ rules, LoadRules path = Ok rules ∧ Forall2 compiled (DockerImages rf) rules ∧
            ApplicationName <$> rules = Yaml.ApplicationName <$> DockerImages rf) ∧
  (∀ r, r ∈ DockerImages rf → (¬ ∃ rule, compiled r rule) →
   ∃ pre bad post msg,
     DockerImages rf = pre ++ bad :: post ∧
     Forall (λ r, ∃ rule, compiled r rule) pre ∧
     rejected bad msg ∧ LoadRules path = Error msg).
Proof.
  intros Hread Hyaml. unfold LoadRules. rewrite Hread, Hyaml.
  destruct (LoadRules_loop (DockerImages rf) [])
    as [(rules & Hok & Hall)|(pre & bad & post & msg & Hl & Hpre & Hbad & Herr)].
  - split.
    + intros _. exists rules. split_and!; [done..|].
      clear Hok. induction Hall as [|r rule l rules [Hname _] _ IH]; [done|].
      csimpl. by rewrite Hname, IH.
    + intros r Hr Hnot. destruct Hnot.
      apply list_elem_of_lookup in Hr as [i Hi].
      destruct (Forall2_lookup_l _ _ _ _ _ Hall Hi) as (rule & _ & Hrule). by exists rule.
  - split.
    + intros Hall. destruct (Hall bad) as [rule Hrule].
      { rewrite Hl. apply elem_of_app. right. left. }
      destruct (compiled_not_rejected _ _ _ Hrule Hbad).
    + intros _ _ _. by exists pre, bad, post, msg.
Qed.

(** C10. A document that declares no rule, or has no list of rules at
    all (the field stays the nil slice), gives the empty list of rules
    and no error. *)
Theorem LoadRules_empty (path data : string) (rf : DetectionConfigFile) :
  ReadFile path = inl data → Unmarshal data = inl rf → DockerImages rf = [] →
  LoadRules path = Ok [].
Proof. intros Hread Hyaml Hnil. unfold LoadRules. by rewrite Hread, Hyaml, Hnil. Qed.
End LoadRules.

Lemma LoadRules_order_and_errors_witness :
  ReadFile "/etc/keepup/broken.yaml" = inl (Fixture.doc_text Fixture.broken_doc) ∧
  Unmarshal (Fixture.doc_text Fixture.broken_doc) =
    inl (Fixture.doc_decoded Fixture.broken_doc) ∧
  ∃ pre bad post msg,
    DockerImages (Fixture.doc_decoded Fixture.broken_doc) = pre ++ bad :: post ∧
    Forall (λ r, ∃ rule, compiled r rule) pre ∧
    rejected bad msg ∧ LoadRules "/etc/keepup/broken.yaml" = Error msg.
Proof.
  split_and!; [reflexivity..|].
  apply (proj2 (@LoadRules_order_and_errors RE2.pkg Fixture.os Fixture.yaml
                  "/etc/keepup/broken.yaml" (Fixture.doc_text Fixture.broken_doc)
                  (Fixture.doc_decoded Fixture.broken_doc) eq_refl eq_refl)
           Fixture.broken_yaml).
  - right. left.
  - intros (rule & _ & _ & Hv). vm_compute in Hv. discriminate.
Defined.

Lemma LoadRules_empty_witness :
  LoadRules "/etc/keepup/empty.yaml" = Ok [] ∧
  LoadRules "/etc/keepup/keyless.yaml" = Ok [].
Proof.
  split.
  - apply (@LoadRules_empty RE2.pkg Fixture.os Fixture.yaml "/etc/keepup/empty.yaml"
             (Fixture.doc_text Fixture.empty_doc) (Fixture.doc_decoded Fixture.empty_doc));
      reflexivity.
  - apply (@LoadRules_empty RE2.pkg Fixture.os Fixture.yaml "/etc/keepup/keyless.yaml"
             (Fixture.doc_text Fixture.keyless_doc) (Fixture.doc_decoded Fixture.keyless_doc));
      reflexivity.
Defined.

(** ** Collecting the images *)

Lemma add_images_lookup (imgs : list string) :
  ∀ (m : gmap string Z) (img : string),
    is_Some (add_images imgs m !! img) ↔ img ∈ imgs ∨ is_Some (m !! img).
Proof.
  unfold add_images. induction imgs as [|i imgs IH]; intros m img; simpl.
  - rewrite elem_of_nil. tauto.
  - rewrite IH, elem_of_cons. destruct (decide (i = img)) as [->|Hne].
    + rewrite lookup_insert_eq. split; [auto|]. intros _. right. by eexists.
    + rewrite lookup_insert_ne by done. split.
      * intros [?|?]; auto.
      * intros [[?|?]|?]; auto. congruence.
Qed.

Lemma add_images_app (imgs1 imgs2 : list string) (m : gmap string Z) :
  add_images (imgs1 ++ imgs2) m = add_images imgs2 (add_images imgs1 m).
Proof. apply foldl_app. Qed.

Lemma store_image_Some (ns img : string) (acc : gmap string (gmap string Z))
    (m : gmap string Z) :
  acc !! ns = Some m → store_image ns img acc = Ok (<[ns := <[img := 1%Z]> m]> acc).
Proof. intros Hm. unfold store_image. by rewrite Hm. Qed.

Lemma forM_store_image (ns : string) (cs : list Container) :
  ∀ (acc : gmap string (gmap string Z)) (m : gmap string Z),
    acc !! ns = Some m →
    forM (λ c, store_image ns (Image c)) cs acc =
    Ok (<[ns := add_images (Image <$> cs) m]> acc).
Proof.
  induction cs as [|c cs IH]; intros acc m Hm.
  - simpl. by rewrite insert_id.
  - rewrite forM_cons. cbn beta. rewrite (store_image_Some _ _ _ _ Hm).
    cbn [mbind outcome_mbind outcome_bind].
    rewrite (IH _ (<[Image c := 1%Z]> m)) by apply lookup_insert_eq.
    by rewrite insert_insert_eq.
Qed.

Lemma collectImages_set (spec : PodSpec) (ns : string)
    (acc : gmap string (gmap string Z)) (m : gmap string Z) :
  acc !! ns = Some m →
  collectImages spec ns acc =
  Ok (<[ns := add_images (Image <$> (Containers spec ++ InitContainers spec)) m]> acc).
Proof.
  intros Hm. unfold collectImages. rewrite (forM_store_image _ _ _ m Hm).
  cbn [mbind outcome_mbind outcome_bind].
  rewrite (forM_store_image _ _ _ (add_images (Image <$> Containers spec) m))
    by apply lookup_insert_eq.
  by rewrite insert_insert_eq, fmap_app, add_images_app.
Qed.

Lemma collect_specs_set (ns : string) (specs : list PodSpec) :
  ∀ (acc : gmap string (gmap string Z)) (m : gmap string Z),
    acc !! ns = Some m →
    forM (λ d, collectImages d ns) specs acc =
    Ok (<[ns := add_images (images_of specs) m]> acc).
Proof.
  induction specs as [|spec specs IH]; intros acc m Hm.
  - simpl. by rewrite insert_id.
  - rewrite forM_cons. cbn beta. rewrite (collectImages_set _ _ _ m Hm).
    cbn [mbind outcome_mbind outcome_bind].
    rewrite (IH _ (add_images (Image <$> (Containers spec ++ InitContainers spec)) m))
      by apply lookup_insert_eq.
    rewrite insert_insert_eq. unfold images_of. csimpl. by rewrite add_images_app.
Qed.

Lemma images_of_app (specs1 specs2 : list PodSpec) :
  images_of (specs1 ++ specs2) = images_of specs1 ++ images_of specs2.
Proof. apply bind_app. Qed.

(** One namespace: its set gains the images of its workloads. *)
Lemma collect_namespace_set (client : Client) (ns : string) (specs : list PodSpec)
    (acc : gmap string (gmap string Z)) :
  workloads client ns = Some specs →
  collect_namespace client ns acc =
  Ok (<[ns := add_images (images_of specs) (default ∅ (acc !! ns))]> acc).
Proof.
  unfold workloads, collect_namespace.
  destruct (Deployments_List client ns) as [deploys| |] eqn:Hd; [|done..].
  destruct (StatefulSets_List client ns) as [sets| |] eqn:Hs; [|done..].
  destruct (DaemonSets_List client ns) as [daemons| |] eqn:Hdm; [|done..].
  intros [= <-].
  set (acc0 := match acc !! ns with
               | Some _ => acc
               | None => <[ns:=∅]> acc
               end).
  assert (acc0 !! ns = Some (default ∅ (acc !! ns)) ∧
          ∀ m, <[ns := m]> acc0 = <[ns := m]> acc) as [Hacc0 Hins].
  { subst acc0. destruct (acc !! ns) as [m0|] eqn:Hns; [done|].
    split; [apply lookup_insert_eq|]. intros m. apply insert_insert_eq. }
  unfold collectFromDeployments, collectFromStatefulSets, collectFromDaemonSets.
  rewrite Hd, Hs, Hdm. cbn [mbind outcome_mbind outcome_bind].
  rewrite (collect_specs_set _ _ _ _ Hacc0). cbn [mbind outcome_mbind outcome_bind].
  rewrite (collect_specs_set _ _ _ _ (lookup_insert_eq _ _ _)).
  cbn [mbind outcome_mbind outcome_bind].
  rewrite (collect_specs_set _ _ _ _ (lookup_insert_eq _ _ _)).
  by rewrite !insert_insert_eq, Hins, !images_of_app, !add_images_app.
Qed.

(** All the namespaces: a listed namespace has a set with the images
    of its workloads, beside what it had; the others are untouched. *)
Lemma collect_namespaces_sets (client : Client) (nss : list string) :
  ∀ acc0, (∀ ns, ns ∈ nss → is_Some (workloads client ns)) →
    ∃ acc, forM (collect_namespace client) nss acc0 = Ok acc ∧
      ∀ ns,
        (ns ∈ nss → ∃ specs m,
           workloads client ns = Some specs ∧ acc !! ns = Some m ∧
           ∀ img, is_Some (m !! img) ↔
                  img ∈ images_of specs ∨ is_Some (default ∅ (acc0 !! ns) !! img)) ∧
        (ns ∉ nss → acc !! ns = acc0 !! ns).
Proof.
  induction nss as [|ns1 nss IH]; intros acc0 Hall.
  - exists acc0. split; [done|]. intros ns. split; [by intros ?%elem_of_nil|done].
  - destruct (Hall ns1) as [specs1 Hspecs1]; [left|].
    rewrite forM_cons, (collect_namespace_set _ _ _ _ Hspecs1).
    cbn [mbind outcome_mbind outcome_bind].
    set (acc1 := <[ns1 := add_images (images_of specs1) (default ∅ (acc0 !! ns1))]> acc0).
    destruct (IH acc1) as (acc & Hacc & Hsets).
    { intros ns Hns. apply Hall. by right. }
    exists acc. split; [done|]. intros ns. destruct (Hsets ns) as [Hin Hout].
    assert (ns ≠ ns1 → acc1 !! ns = acc0 !! ns) as Hother
      by (intros Hne; subst acc1; by apply lookup_insert_ne).
    assert (acc1 !! ns1 =
            Some (add_images (images_of specs1) (default ∅ (acc0 !! ns1)))) as Hsame
      by (subst acc1; apply lookup_insert_eq).
    split.
    + intros Hns. destruct (decide (ns ∈ nss)) as [Hrest|Hrest].
      * destruct (Hin Hrest) as (specs & m & Hspecs & Hm & Hkeys).
        exists specs, m. split_and!; [done..|]. intros img. rewrite Hkeys.
        destruct (decide (ns = ns1)) as [->|Hne]; [|by rewrite Hother].
        rewrite Hsame. simpl. rewrite add_images_lookup.
        assert (specs = specs1) as -> by congruence. tauto.
      * apply elem_of_cons in Hns as [->|Hns]; [|done].
        exists specs1, (add_images (images_of specs1) (default ∅ (acc0 !! ns1))).
        split_and!; [done|by rewrite Hout|]. intros img. apply add_images_lookup.
    + intros Hns. apply not_elem_of_cons in Hns as [Hne Hns].
      by rewrite Hout, Hother.
Qed.

Lemma filter_eq_absent (l : list string) (x : string) :
  x ∉ l → filter (λ y, y = x) l = [].
Proof.
  induction l as [|y l IH]; [done|]. intros [Hne Hnot]%not_elem_of_cons.
  rewrite filter_cons, decide_False by done. by apply IH.
Qed.

Lemma NoDup_once (l : list string) (x : string) :
  NoDup l → x ∈ l → length (filter (λ y, y = x) l) = 1.
Proof.
  induction 1 as [|y l Hy Hnd IH]; [by intros ?%elem_of_nil|].
  rewrite filter_cons. intros [->|Hin]%elem_of_cons.
  - rewrite decide_True by done. simpl. by rewrite filter_eq_absent.
  - rewrite decide_False; [by apply IH|]. intros ->. done.
Qed.

Section Slices.
Context `{order : MapOrder}.

(** The inner loop (main.go:141-143) appends the keys of one set to
    the slice of its namespace. *)
Lemma to_slices_inner (ns : string) (kvs : list (string * Z)) :
  ∀ (result : gmap string (list string)) (ns' : string),
    foldl (λ result '(img, _), append_image ns img result) result kvs !! ns' =
    if decide (ns = ns') then
      match kvs with
      | [] => result !! ns'
      | _ :: _ => Some (default [] (result !! ns') ++ kvs.*1)
      end
    else result !! ns'.
Proof.
  induction kvs as [|[img z] kvs IH]; intros result ns'.
  - simpl. by destruct (decide _).
  - cbn [foldl]. rewrite IH. unfold append_image.
    destruct (decide (ns = ns')) as [<-|Hne]; [|by rewrite lookup_insert_ne].
    rewrite lookup_insert_eq. simpl. destruct kvs as [|kv kvs]; [done|].
    by rewrite <- app_assoc.
Qed.

(** The outer loop (main.go:140-144), over a visit that comes to a
    namespace at most once. *)
Lemma to_slices_outer (l : list (string * gmap string Z)) :
  ∀ (result : gmap string (list string)), NoDup l.*1 →
    ∀ ns,
      (∀ images, (ns, images) ∈ l →
         foldl (λ result '(ns, images),
                  foldl (λ result '(img, _), append_image ns img result)
                        result (range (range_acc_images ns) images)) result l !! ns =
         match range (range_acc_images ns) images with
         | [] => result !! ns
         | kvs => Some (default [] (result !! ns) ++ kvs.*1)
         end) ∧
      (ns ∉ l.*1 →
         foldl (λ result '(ns, images),
                  foldl (λ result '(img, _), append_image ns img result)
                        result (range (range_acc_images ns) images)) result l !! ns =
         result !! ns).
Proof.
  induction l as [|[ns1 images1] l IH]; intros result Hnd ns.
  - split; [by intros images ?%elem_of_nil|done].
  - apply NoDup_cons in Hnd as [Hns1 Hnd]. cbn [foldl].
    destruct (IH (foldl (λ result '(img, _), append_image ns1 img result)
                    result (range (range_acc_images ns1) images1)) Hnd ns)
      as [Hin Hout].
    split.
    + intros images [[= -> ->]|Hl]%elem_of_cons.
      * rewrite Hout by done. rewrite to_slices_inner, decide_True by done.
        by destruct (range _ _).
      * rewrite (Hin _ Hl), to_slices_inner, decide_False; [done|].
        intros ->. apply Hns1, list_elem_of_fmap. by exists (ns, images).
    + intros [Hne Hnot]%not_elem_of_cons.
      by rewrite Hout, to_slices_inner, decide_False.
Qed.

(** The slice of a namespace has the keys of its set, in the order of
    the visit; a namespace with no set, or an empty one, has none. *)
Lemma to_slices_lookup (acc : gmap string (gmap string Z)) (ns : string) :
  to_slices acc !! ns =
  match acc !! ns with
  | Some images =>
      match range (range_acc_images ns) images with
      | [] => None
      | kvs => Some kvs.*1
      end
  | None => None
  end.
Proof.
  unfold to_slices.
  destruct (to_slices_outer (range range_acc acc) ∅ (NoDup_range_keys _ _) ns)
    as [Hin Hout].
  destruct (acc !! ns) as [images|] eqn:Hns.
  - rewrite (Hin images) by by apply elem_of_range.
    by destruct (range _ _).
  - rewrite Hout; [done|]. rewrite range_keys, Hns. by intros [? ?].
Qed.

(** C6. When the calls to the cluster succeed, [CollectNamespaceImages]
    returns, and the slice of each listed namespace is a set: it has
    no image twice, and holds exactly the images of the main and init
    containers of the workloads of the namespace, each one once,
    however many containers or workloads refer to it.  A namespace
    that is not listed has no slice. *)
Theorem collected_images_are_a_set (client : Client) (nss : list string) :
  Namespaces_List client = Ok nss →
  (∀ ns, ns ∈ nss → is_Some (workloads client ns)) →
  ∃ result, CollectNamespaceImages client = Ok result ∧
    ∀ ns,
      (ns ∈ nss → ∃ specs,
         workloads client ns = Some specs ∧
         NoDup (default [] (result !! ns)) ∧
         (∀ img, img ∈ default [] (result !! ns) ↔ img ∈ images_of specs) ∧
         (∀ img, img ∈ images_of specs →
                 length (filter (λ y, y = img) (default [] (result !! ns))) = 1)) ∧
      (ns ∉ nss → result !! ns = None).
Proof.
  intros Hnss Hall. unfold CollectNamespaceImages. rewrite Hnss.
  cbn [mbind outcome_mbind outcome_bind].
  destruct (collect_namespaces_sets client nss ∅ Hall) as (acc & -> & Hsets).
  cbn [mbind outcome_mbind outcome_bind]. eexists. split; [done|].
  intros ns. destruct (Hsets ns) as [Hin Hout]. split.
  - intros Hns. destruct (Hin Hns) as (specs & m & Hspecs & Hm & Hkeys).
    exists specs. split; [done|].
    assert (default [] (to_slices acc !! ns) = (range (range_acc_images ns) m).*1)
      as ->.
    { rewrite to_slices_lookup, Hm. by destruct (range _ _). }
    assert (∀ img, img ∈ (range (range_acc_images ns) m).*1 ↔ img ∈ images_of specs)
      as Hmem.
    { intros img. rewrite range_keys, Hkeys, lookup_empty. simpl.
      rewrite lookup_empty. split; [|auto]. intros [?|[? ?]]; done. }
    split_and!; [apply NoDup_range_keys|done|].
    intros img Himg. apply NoDup_once; [apply NoDup_range_keys|by apply Hmem].
  - intros Hns. by rewrite to_slices_lookup, (Hout Hns), lookup_empty.
Qed.
End Slices.

Lemma collected_images_are_a_set_witness :
  Namespaces_List Fixture.cluster = Ok ["ns1"] ∧
  ∃ result, CollectNamespaceImages Fixture.cluster = Ok result ∧
    default [] (result !! "ns1") = ["redis:7.2.4"].
Proof.
  split; [reflexivity|].
  destruct (@collected_images_are_a_set listed_order Fixture.cluster ["ns1"] eq_refl)
    as (result & Hresult & Hset).
  { intros ns _. by eexists. }
  exists result. split; [done|].
  vm_compute in Hresult. injection Hresult as <-. reflexivity.
Defined.

(** * Further properties of the code *)

(** ** [normalizeSemVer]: what a version is made of *)

Lemma list_snoc_case {A} (l : list A) : l ≠ [] → ∃ l' x, l = l' ++ [x].
Proof.
  induction l as [|y l IH]; [done|]. intros _. destruct l as [|z l].
  - by exists [], y.
  - destruct IH as (l' & x & ->); [done|]. by exists (y :: l'), x.
Qed.

(** The input under a match of [versionRe]: the runs of digits of the
    groups, with the dot between them and, if the third group took
    part, the dot and the run after them. *)
Lemma match_here_version_input (s : list ascii) (m : list string) :
  RE2.match_here versionRe s = Some m →
  ∃ d1 d2 rest,
    s = d1 ++ "."%char :: d2 ++ rest ∧
    d1 ≠ [] ∧ all_digits d1 = true ∧ d2 ≠ [] ∧ all_digits d2 = true ∧
    (m = [string_of_list_ascii (d1 ++ "."%char :: d2);
          string_of_list_ascii d1; string_of_list_ascii d2; ""] ∨
     ∃ d3 rest',
       rest = "."%char :: d3 ++ rest' ∧ d3 ≠ [] ∧ all_digits d3 = true ∧
       m = [string_of_list_ascii (d1 ++ "."%char :: d2 ++ "."%char :: d3);
            string_of_list_ascii d1; string_of_list_ascii d2;
            string_of_list_ascii ("."%char :: d3)]).
Proof.
  unfold RE2.match_here, versionRe. rewrite run_Cat, run_Capture.
  intros (d1 & r1 & -> & Hne1 & Hd1 & H)%run_plus_digits_inv. cbn beta in H.
  rewrite run_Cat, run_Lit in H. destruct r1 as [|a r1]; [done|].
  destruct (Ascii.eqb a ".") eqn:Ha; [|done]. apply Ascii.eqb_eq in Ha as ->.
  rewrite run_Cat, run_Capture in H.
  apply run_plus_digits_inv in H as (d2 & r2 & -> & Hne2 & Hd2 & H). cbn beta in H.
  rewrite !consumed_app, run_Quest in H.
  exists d1, d2, r2. split_and!; [done..|].
  destruct (RE2.run (RE2.Capture 3 _) _ _ _) as [y|] eqn:Hp.
  - injection H as ->. rewrite run_Capture, run_Cat, run_Lit in Hp.
    destruct r2 as [|b r2]; [done|].
    destruct (Ascii.eqb b ".") eqn:Hb; [|done]. apply Ascii.eqb_eq in Hb as ->.
    apply run_plus_digits_inv in Hp as (d3 & r3 & -> & Hne3 & Hd3 & [= <-]).
    right. exists d3, r3. split_and!; [done..|].
    rewrite (consumed_prefix ("."%char :: d3 ++ r3) ("."%char :: d3) r3) by app_eq.
    by rewrite (consumed_prefix _ (d1 ++ "."%char :: d2 ++ "."%char :: d3) r3) by app_eq.
  - injection H as <-. left.
    by rewrite (consumed_prefix _ (d1 ++ "."%char :: d2) r2) by app_eq.
Qed.

(** The run of digits at the head of a list. *)
Lemma digit_span (l : list ascii) :
  ∃ d t, l = d ++ t ∧ all_digits d = true ∧ starts_with_digit t = false.
Proof.
  induction l as [|c l (d & t & -> & Hd & Ht)].
  - by exists [], [].
  - destruct (RE2.is_digit c) eqn:Hc.
    + exists (c :: d), t. split_and!; [done| |done].
      unfold all_digits in *. simpl. by rewrite Hc, Hd.
    + by exists [], (c :: d ++ t).
Qed.

(** What follows [major.minor], when it is not a digit: no patch
    component, or a dot and the whole run of digits after it. *)
Lemma patch_cases (rest : list ascii) :
  starts_with_digit rest = false →
  no_patch rest = true ∨
  ∃ d3 rest', rest = "."%char :: d3 ++ rest' ∧ d3 ≠ [] ∧ all_digits d3 = true ∧
              starts_with_digit rest' = false.
Proof.
  intros Hrest. destruct (no_patch rest) eqn:Hpatch; [by left|right].
  unfold no_patch in Hpatch. rewrite Hrest in Hpatch. simpl in Hpatch.
  destruct rest as [|c t2]; [done|].
  destruct (Ascii.eqb c ".") eqn:Hc; [apply Ascii.eqb_eq in Hc as ->|].
  - apply negb_false_iff in Hpatch. destruct t2 as [|c3 t3]; [done|].
    simpl in Hpatch. destruct (digit_span t3) as (d3 & t4 & -> & Hd3 & Ht4).
    exists (c3 :: d3), t4. split_and!; [done..| |done].
    unfold all_digits in *. simpl. by rewrite Hpatch, Hd3.
  - exfalso. revert Hpatch Hc. clear.
    destruct c as [[] [] [] [] [] [] [] []]; simpl; by try destruct t2.
Qed.

(** Where a version starts, its runs of digits can be taken whole. *)
Lemma version_here_split (l : list ascii) :
  version_here l = true →
  ∃ d1 d2 rest,
    l = d1 ++ "."%char :: d2 ++ rest ∧
    d1 ≠ [] ∧ all_digits d1 = true ∧ d2 ≠ [] ∧ all_digits d2 = true ∧
    starts_with_digit rest = false.
Proof.
  induction l as [|a t IH]; [done|]. cbn [version_here].
  intros [Ha Ht]%andb_prop. destruct (version_here t) eqn:Hhere.
  - destruct (IH eq_refl) as (d1 & d2 & rest & -> & Hne1 & Hd1 & Hne2 & Hd2 & Hrest).
    exists (a :: d1), d2, rest. split_and!; [done..| |done|done|done].
    unfold all_digits in *. simpl. by rewrite Ha, Hd1.
  - simpl in Ht. destruct t as [|c t]; [done|].
    destruct (Ascii.eqb c ".") eqn:Hc.
    + apply Ascii.eqb_eq in Hc as ->. destruct t as [|b t]; [done|].
      destruct (digit_span t) as (d & rest & -> & Hd & Hrest).
      exists [a], (b :: d), rest. split_and!; [done..| |done| |done].
      * unfold all_digits. simpl. by rewrite Ha.
      * unfold all_digits in *. simpl. by rewrite Ht, Hd.
    + exfalso. revert Ht Hc. clear.
      destruct c as [[] [] [] [] [] [] [] []]; simpl; by try destruct t.
Qed.

Lemma version_here_cons (a : ascii) (t : list ascii) :
  version_here (a :: t) =
  RE2.is_digit a &&
  (version_here t ||
   match t with
   | "."%char :: b :: _ => RE2.is_digit b
   | _ => false
   end).
Proof. reflexivity. Qed.

Lemma split_version_here (d1 d2 rest : list ascii) :
  d1 ≠ [] → all_digits d1 = true → d2 ≠ [] → all_digits d2 = true →
  version_here (d1 ++ "."%char :: d2 ++ rest) = true.
Proof.
  intros Hne1 Hd1 Hne2 Hd2. destruct d2 as [|b d2]; [done|].
  apply (andb_prop (RE2.is_digit b)) in Hd2 as [Hb _].
  induction d1 as [|a d1 IH]; [done|].
  apply (andb_prop (RE2.is_digit a)) in Hd1 as [Ha Hd1].
  destruct d1 as [|a' d1].
  - simpl. by rewrite Ha, Hb.
  - change (version_here (a :: (a' :: d1) ++ "."%char :: (b :: d2) ++ rest) = true).
    rewrite version_here_cons, Ha, IH; done.
Qed.

(** A match of [versionRe] starts exactly where a version starts. *)
Lemma version_here_match (l : list ascii) :
  version_here l = true → is_Some (RE2.match_here versionRe l).
Proof.
  intros (d1 & d2 & rest & -> & Hne1 & Hd1 & Hne2 & Hd2 & Hrest)%version_here_split.
  destruct (patch_cases rest Hrest)
    as [Hpatch|(d3 & rest' & -> & Hne3 & Hd3 & Hrest')].
  - eexists. by apply match_here_minor.
  - eexists. by apply match_here_patch.
Qed.

Lemma match_version_here (l : list ascii) (m : list string) :
  RE2.match_here versionRe l = Some m → version_here l = true.
Proof.
  intros (d1 & d2 & rest & -> & Hne1 & Hd1 & Hne2 & Hd2 & _)%match_here_version_input.
  by apply split_version_here.
Qed.

Lemma match_here_version_here (l : list ascii) :
  RE2.match_here versionRe l = None ↔ version_here l = false.
Proof.
  split.
  - intros Hnone. destruct (version_here l) eqn:Hhere; [|done].
    apply version_here_match in Hhere as [m Hm]. congruence.
  - intros Hhere. destruct (RE2.match_here versionRe l) as [m|] eqn:Hm; [|done].
    apply match_version_here in Hm. congruence.
Qed.

(** [search] passes the positions that have no match. *)
Lemma search_passes (r : RE2.Re) (pre s : list ascii) :
  (∀ pre1 pre2, pre = pre1 ++ pre2 → pre2 ≠ [] →
     RE2.match_here r (pre2 ++ s) = None) →
  RE2.search r (pre ++ s) = RE2.search r s.
Proof.
  induction pre as [|c pre IH]; [done|]. intros Hnone.
  pose proof (Hnone [] (c :: pre) eq_refl) as Hhead.
  simpl app in *. rewrite search_cons, Hhead by done.
  apply IH. intros pre1 pre2 -> Hne. by apply (Hnone (c :: pre1) pre2).
Qed.

(** X1. [normalizeSemVer] returns the version [v] exactly when the
    input reads [pre major . minor rest], where [major] is the first
    place of the input at which a run of digits, a dot and a digit
    stand (no version starts inside [pre], so [major] is the whole run
    of digits there), [minor] is the whole run of digits after the dot
    ([rest] does not go on with a digit), and [v] is
    [major.minor.patch], both runs unchanged (no zero is stripped):
    [patch] is [0] when [rest] is not a dot and a digit, and the whole
    run of digits after the dot when it is.  Nothing else of the input
    reaches the version, and the input determines it. *)
Theorem normalizeSemVer_shape (s v : string) :
  normalizeSemVer s versionRe = Ok (Some v) ↔
  ∃ pre major minor rest,
    list_ascii_of_string s = pre ++ major ++ "."%char :: minor ++ rest ∧
    (∀ pre1 pre2, pre = pre1 ++ pre2 → pre2 ≠ [] →
       version_here (pre2 ++ major ++ "."%char :: minor ++ rest) = false) ∧
    major ≠ [] ∧ all_digits major = true ∧ minor ≠ [] ∧ all_digits minor = true ∧
    starts_with_digit rest = false ∧
    ((no_patch rest = true ∧
      v = string_of_list_ascii major +:+ "." +:+ string_of_list_ascii minor +:+ ".0") ∨
     ∃ patch rest',
       rest = "."%char :: patch ++ rest' ∧ patch ≠ [] ∧ all_digits patch = true ∧
       starts_with_digit rest' = false ∧
       v = string_of_list_ascii major +:+ "." +:+ string_of_list_ascii minor
           +:+ "." +:+ string_of_list_ascii patch).
Proof.
  rewrite normalizeSemVer_search. split.
  - destruct (RE2.search versionRe _) as [m|] eqn:Hs; [|done].
    apply search_leftmost in Hs as (pre & rest0 & Hsplit & Hm & Hleft).
    assert (version_here rest0 = true) as Hhere by by eapply match_version_here.
    apply version_here_split in Hhere
      as (d1 & d2 & rest & -> & Hne1 & Hd1 & Hne2 & Hd2 & Hrest).
    intros Hv. exists pre, d1, d2, rest. split_and!; [done| |done..|].
    { intros pre1 pre2 Hpre Hne. apply match_here_version_here. by eapply Hleft. }
    destruct (patch_cases rest Hrest)
      as [Hpatch|(d3 & rest' & -> & Hne3 & Hd3 & Hrest')].
    + left. split; [done|].
      rewrite (match_here_minor d1 d2 rest) in Hm by done. injection Hm as <-.
      cbn in Hv. by injection Hv as <-.
    + right. exists d3, rest'. split_and!; [done..|].
      rewrite (match_here_patch d1 d2 d3 rest') in Hm by done. injection Hm as <-.
      cbn in Hv. destruct (decide _); [done|]. by injection Hv as <-.
  - intros (pre & d1 & d2 & rest & -> & Hleft & Hne1 & Hd1 & Hne2 & Hd2 & Hrest & Hv).
    rewrite search_passes
      by (intros pre1 pre2 Hpre Hne; apply match_here_version_here; by eapply Hleft).
    destruct Hv as [[Hpatch ->]|(d3 & rest' & -> & Hne3 & Hd3 & Hrest' & ->)].
    + by rewrite (search_here _ _ _ (match_here_minor d1 d2 rest Hne1 Hd1 Hne2 Hd2 Hpatch)).
    + by rewrite (search_here _ _ _
                    (match_here_patch d1 d2 d3 rest' Hne1 Hd1 Hne2 Hd2 Hne3 Hd3 Hrest')).
Qed.

Lemma normalizeSemVer_shape_witness :
  normalizeSemVer "nginx:007.20-rc1" versionRe = Ok (Some "007.20.0") ∧
  (∃ pre major minor rest,
     list_ascii_of_string "nginx:007.20-rc1" = pre ++ major ++ "."%char :: minor ++ rest ∧
     (∀ pre1 pre2, pre = pre1 ++ pre2 → pre2 ≠ [] →
        version_here (pre2 ++ major ++ "."%char :: minor ++ rest) = false) ∧
     major ≠ [] ∧ all_digits major = true ∧ minor ≠ [] ∧ all_digits minor = true ∧
     starts_with_digit rest = false ∧
     ((no_patch rest = true ∧
       "007.20.0" = string_of_list_ascii major +:+ "." +:+ string_of_list_ascii minor
                    +:+ ".0") ∨
      ∃ patch rest',
        rest = "."%char :: patch ++ rest' ∧ patch ≠ [] ∧ all_digits patch = true ∧
        starts_with_digit rest' = false ∧
        "007.20.0" = string_of_list_ascii major +:+ "." +:+ string_of_list_ascii minor
                     +:+ "." +:+ string_of_list_ascii patch)) ∧
  ¬ (∃ pre major minor rest,
       list_ascii_of_string "12.34" = pre ++ major ++ "."%char :: minor ++ rest ∧
       (∀ pre1 pre2, pre = pre1 ++ pre2 → pre2 ≠ [] →
          version_here (pre2 ++ major ++ "."%char :: minor ++ rest) = false) ∧
       major ≠ [] ∧ all_digits major = true ∧ minor ≠ [] ∧ all_digits minor = true ∧
       starts_with_digit rest = false ∧
       ((no_patch rest = true ∧
         "2.3.0" = string_of_list_ascii major +:+ "." +:+ string_of_list_ascii minor
                   +:+ ".0") ∨
        ∃ patch rest',
          rest = "."%char :: patch ++ rest' ∧ patch ≠ [] ∧ all_digits patch = true ∧
          starts_with_digit rest' = false ∧
          "2.3.0" = string_of_list_ascii major +:+ "." +:+ string_of_list_ascii minor
                    +:+ "." +:+ string_of_list_ascii patch)).
Proof.
  split_and!.
  - reflexivity.
  - apply (proj1 (normalizeSemVer_shape "nginx:007.20-rc1" "007.20.0")). reflexivity.
  - intros Hshape. apply (proj2 (normalizeSemVer_shape "12.34" "2.3.0")) in Hshape.
    vm_compute in Hshape. discriminate Hshape.
Defined.

(** ** [normalizeSemVer]: when there is no version *)

(** A digit, a dot and a digit are enough for a match at the digit. *)
Lemma match_here_digit_dot_digit (a b : ascii) (t : list ascii) :
  RE2.is_digit a = true → RE2.is_digit b = true →
  is_Some (RE2.match_here versionRe (a :: "."%char :: b :: t)).
Proof.
  intros Ha Hb. destruct (digit_span t) as (d2 & t2 & -> & Hd2 & Ht2).
  assert (all_digits [a] = true) as Hd1 by (unfold all_digits; simpl; by rewrite Ha).
  assert (all_digits (b :: d2) = true) as Hd2'
    by (unfold all_digits in *; simpl; by rewrite Hb, Hd2).
  destruct (no_patch t2) eqn:Hpatch.
  - eexists. apply (match_here_minor [a] (b :: d2) t2); done.
  - unfold no_patch in Hpatch. rewrite Ht2 in Hpatch. simpl in Hpatch.
    destruct t2 as [|c t2]; [done|].
    destruct (Ascii.eqb c ".") eqn:Hc; [apply Ascii.eqb_eq in Hc as ->|].
    + apply negb_false_iff in Hpatch. destruct t2 as [|c3 t3]; [done|].
      simpl in Hpatch. destruct (digit_span t3) as (d3 & t4 & -> & Hd3 & Ht4).
      eexists. apply (match_here_patch [a] (b :: d2) (c3 :: d3) t4); try done.
      unfold all_digits in *. simpl. by rewrite Hpatch, Hd3.
    + exfalso. revert Hpatch Hc. clear.
      destruct c as [[] [] [] [] [] [] [] []]; simpl; by try destruct t2.
Qed.

Lemma has_version_search (l : list ascii) :
  has_version l = true → is_Some (RE2.search versionRe l).
Proof.
  induction l as [|a t IH]; [done|]. rewrite search_cons.
  destruct (RE2.match_here versionRe (a :: t)) as [m|] eqn:Hm; [by eexists|].
  cbn [has_version]. intros [Hhere|Htail]%orb_prop; [|by apply IH].
  apply andb_prop in Hhere as [Ha Hb].
  destruct t as [|c t]; [done|].
  destruct c as [[] [] [] [] [] [] [] []]; try done.
  destruct t as [|b t]; [done|].
  destruct (match_here_digit_dot_digit a b t Ha Hb) as [m' Hm']. congruence.
Qed.

Lemma has_version_app (p q : list ascii) (a b : ascii) :
  RE2.is_digit a = true → RE2.is_digit b = true →
  has_version (p ++ a :: "."%char :: b :: q) = true.
Proof.
  intros Ha Hb. induction p as [|c p IH].
  - simpl. by rewrite Ha, Hb.
  - simpl app. cbn [has_version]. rewrite IH. apply orb_true_r.
Qed.

Lemma search_has_version (l : list ascii) (m : list string) :
  RE2.search versionRe l = Some m → has_version l = true.
Proof.
  intros (pre & rest0 & -> & Hm & _)%search_leftmost.
  apply match_here_version_input in Hm
    as (d1 & d2 & rest & -> & Hne1 & Hd1 & Hne2 & Hd2 & _).
  destruct (list_snoc_case d1 Hne1) as (d1' & a & ->).
  destruct d2 as [|b d2]; [done|].
  unfold all_digits in Hd1, Hd2. rewrite forallb_app in Hd1. simpl in Hd1, Hd2.
  apply andb_prop in Hd1 as [_ Ha]. rewrite andb_true_r in Ha.
  apply andb_prop in Hd2 as [Hb _].
  replace (pre ++ (d1' ++ [a]) ++ "."%char :: (b :: d2) ++ rest)
    with ((pre ++ d1') ++ a :: "."%char :: b :: d2 ++ rest)
    by (rewrite <- !app_assoc; reflexivity).
  by apply has_version_app.
Qed.

(** X2. [normalizeSemVer] finds no version exactly when the input has
    nowhere a digit, a dot and a digit next to each other; in every
    other case it returns a version (it does not panic either way). *)
Theorem normalizeSemVer_none_iff (s : string) :
  (normalizeSemVer s versionRe = Ok None ↔
   has_version (list_ascii_of_string s) = false) ∧
  ((∃ v, normalizeSemVer s versionRe = Ok (Some v)) ↔
   has_version (list_ascii_of_string s) = true).
Proof.
  rewrite normalizeSemVer_search.
  destruct (RE2.search versionRe _) as [m|] eqn:Hs.
  - assert (has_version (list_ascii_of_string s) = true) as Hv
      by by eapply search_has_version.
    apply search_leftmost in Hs as (pre & rest0 & _ & Hm & _).
    apply match_here_version_inv in Hm as (m0 & d1 & d2 & p & -> & _).
    rewrite Hv. cbn. split; split; try done. intros _. by eexists.
  - destruct (has_version (list_ascii_of_string s)) eqn:Hv.
    + apply has_version_search in Hv as [m Hm]. congruence.
    + split; split; try done. by intros [v ?].
Qed.

(** ** The aggregate: which namespaces it has, and the order of the visit *)

Lemma store_version_no_empty (ns app v : string) (u : gmap string (gmap string string)) :
  no_empty_namespace u → no_empty_namespace (store_version ns app v u).
Proof.
  intros Hu ns' m. unfold store_version. destruct (decide (ns = ns')) as [<-|Hne].
  - rewrite lookup_insert_eq. intros [= <-]. apply insert_non_empty.
  - rewrite lookup_insert_ne by done. apply Hu.
Qed.

Lemma foldl_store_no_empty (ns : string) (ws : list (string * string)) :
  ∀ u : gmap string (gmap string string),
    no_empty_namespace u →
    no_empty_namespace (foldl (λ u w, store_version ns w.1 w.2 u) u ws).
Proof.
  induction ws as [|w ws IH]; intros u Hu; [done|].
  simpl. by apply IH, store_version_no_empty.
Qed.

(** Two aggregates without empty namespaces that agree on the entries
    of a namespace have the same map for it. *)
Lemma no_empty_lookup_eq (u1 u2 : gmap string (gmap string string)) (ns : string) :
  no_empty_namespace u1 → no_empty_namespace u2 →
  (∀ app, entry ns app u1 = entry ns app u2) → u1 !! ns = u2 !! ns.
Proof.
  intros H1 H2 Hentries. unfold entry in Hentries.
  destruct (u1 !! ns) as [m1|] eqn:Hm1, (u2 !! ns) as [m2|] eqn:Hm2; simpl in *.
  - f_equal. by apply map_eq.
  - destruct (map_choose m1) as (app & x & Hx); [by eapply H1|].
    specialize (Hentries app). congruence.
  - destruct (map_choose m2) as (app & x & Hx); [by eapply H2|].
    specialize (Hentries app). congruence.
  - done.
Qed.

Section AggregateShape.
Context `{regexp : RegexpPkg}.
Variable re : Regexp.
Hypothesis re_groups : NumSubexp re = 3.

Lemma match_visits_no_empty (rules : list Rule) (l : list (string * list string)) :
  ∀ u0 u, no_empty_namespace u0 →
    forM (λ '(ns, images), match_namespace rules re ns images) l u0 = Ok u →
    no_empty_namespace u.
Proof.
  induction l as [|[ns images] l IH]; intros u0 u Hu0.
  - by intros [= <-].
  - rewrite forM_cons, (match_namespace_hits re re_groups).
    cbn [mbind outcome_mbind outcome_bind]. apply IH.
    by apply foldl_store_no_empty.
Qed.

(** The matching stage, for any order of the visit: it returns, its
    aggregate has no empty namespace, and an entry is the last store
    of the images of its namespace. *)
Lemma match_stage_shape (order : MapOrder) (rules : list Rule)
    (imagesByNs : gmap string (list string)) :
  ∃ u, match_stage rules re imagesByNs = Ok u ∧ no_empty_namespace u ∧
    ∀ ns app, entry ns app u =
              (imagesByNs !! ns ≫= λ images, last_hit app (hits re rules images)).
Proof.
  destruct (match_stage_entries re re_groups rules imagesByNs) as (u & Hu & Hentries).
  exists u. split_and!; [done| |done].
  eapply match_visits_no_empty; [|exact Hu]. intros ns m. by rewrite lookup_empty.
Qed.

(** X3. The aggregate does not depend on the order in which the
    namespaces are visited, and what it holds for a namespace depends
    on the images of that namespace alone: the same image in two
    namespaces is matched for each on its own. *)
Theorem aggregate_by_namespace (order1 order2 : MapOrder) (rules : list Rule)
    (imagesByNs1 imagesByNs2 : gmap string (list string)) :
  ∃ u1 u2,
    @match_stage regexp order1 rules re imagesByNs1 = Ok u1 ∧
    @match_stage regexp order2 rules re imagesByNs2 = Ok u2 ∧
    (∀ ns, imagesByNs1 !! ns = imagesByNs2 !! ns → u1 !! ns = u2 !! ns) ∧
    (imagesByNs1 = imagesByNs2 → u1 = u2).
Proof.
  destruct (match_stage_shape order1 rules imagesByNs1) as (u1 & Hu1 & Hne1 & He1).
  destruct (match_stage_shape order2 rules imagesByNs2) as (u2 & Hu2 & Hne2 & He2).
  exists u1, u2. split_and!; [done..| |].
  - intros ns Hns. apply no_empty_lookup_eq; [done..|].
    intros app. by rewrite He1, He2, Hns.
  - intros <-. apply map_eq. intros ns. apply no_empty_lookup_eq; [done..|].
    intros app. by rewrite He1, He2.
Qed.

(** X4. A namespace is in the aggregate exactly when one of its images
    resolved a version with one of the rules: the map of a namespace is
    made at its first store only, so the aggregate has no empty
    namespace, and a namespace without a detection gives no component. *)
Theorem aggregate_namespaces (order : MapOrder) (rules : list Rule)
    (imagesByNs : gmap string (list string)) :
  ∃ u, match_stage rules re imagesByNs = Ok u ∧
    no_empty_namespace u ∧
    ∀ ns, is_Some (u !! ns) ↔
          ∃ images img rule v,
            imagesByNs !! ns = Some images ∧ img ∈ images ∧ rule ∈ rules ∧
            resolves re img rule v.
Proof.
  destruct (match_stage_shape order rules imagesByNs) as (u & Hu & Hne & Hentries).
  exists u. split_and!; [done..|]. intros ns. split.
  - intros [m Hm]. destruct (map_choose m) as (app & x & Hx); [by eapply Hne|].
    assert (entry ns app u = Some x) as Hentry by (unfold entry; by rewrite Hm).
    rewrite Hentries in Hentry.
    destruct (imagesByNs !! ns) as [images|]; [simpl in Hentry|done].
    apply last_hit_elem, list_elem_of_bind in Hentry as (img & Hhit & Himg).
    apply list_elem_of_omap in Hhit as (rule & Hrule & Hhit).
    apply (hit_resolves re) in Hhit as [_ Hres]. by exists images, img, rule, x.
  - intros (images & img & rule & v & Hns & Himg & Hrule & Hres).
    destruct (last_hit_is_Some (ApplicationName rule) v (hits re rules images))
      as [v' Hv'].
    { apply list_elem_of_bind. exists img. split; [|done].
      apply list_elem_of_omap. exists rule. split; [done|]. by apply hit_resolves. }
    assert (entry ns (ApplicationName rule) u = Some v') as Hentry
      by (by rewrite Hentries, Hns).
    unfold entry in Hentry. by destruct (u !! ns).
Qed.
End AggregateShape.

Lemma aggregate_by_namespace_witness :
  NumSubexp versionRe = 3 ∧
  ∃ u1 u2,
    @match_stage RE2.pkg listed_order [Fixture.redis_rule] versionRe
      {[ "ns1" := ["redis:7.2.4"]; "ns2" := ["redis:6.0"] ]} = Ok u1 ∧
    @match_stage RE2.pkg listed_order [Fixture.redis_rule] versionRe
      {[ "ns1" := ["redis:7.2.4"]; "ns3" := ["nginx:1.25.3"] ]} = Ok u2 ∧
    u1 !! "ns1" = u2 !! "ns1".
Proof.
  split; [reflexivity|].
  destruct (@aggregate_by_namespace RE2.pkg versionRe eq_refl listed_order listed_order
              [Fixture.redis_rule]
              {[ "ns1" := ["redis:7.2.4"]; "ns2" := ["redis:6.0"] ]}
              {[ "ns1" := ["redis:7.2.4"]; "ns3" := ["nginx:1.25.3"] ]})
    as (u1 & u2 & Hu1 & Hu2 & Hlocal & _).
  exists u1, u2. split_and!; [exact Hu1|exact Hu2|]. apply Hlocal.
  vm_compute. reflexivity.
Defined.

Lemma aggregate_namespaces_witness :
  NumSubexp versionRe = 3 ∧
  ∃ u, @match_stage RE2.pkg listed_order [Fixture.redis_rule] versionRe
         {[ "ns1" := ["redis:7.2.4"]; "ns3" := ["nginx:1.25.3"] ]} = Ok u ∧
       no_empty_namespace u.
Proof.
  split; [reflexivity|].
  destruct (@aggregate_namespaces RE2.pkg versionRe eq_refl listed_order
              [Fixture.redis_rule]
              {[ "ns1" := ["redis:7.2.4"]; "ns3" := ["nginx:1.25.3"] ]})
    as (u & Hu & Hne & _).
  exists u. split; [exact Hu|exact Hne].
Defined.

(** ** The report: its components, whatever the order *)

(** X5. The report has exactly one component for each entry of the
    aggregate, with the key of the entry in [Version] and its value in
    [ChartName]; the order in which the maps are visited decides the
    order of the components and nothing else. *)
Theorem report_stage_components (order1 order2 : MapOrder)
    (u : gmap string (gmap string string)) :
  (∀ c, c ∈ @report_stage order1 u ↔
        entry (Namespace c) (Version c) u = Some (ChartName c)) ∧
  NoDup (@report_stage order1 u) ∧
  @report_stage order1 u ≡ₚ @report_stage order2 u.
Proof.
  split_and!.
  - intros c. apply elem_of_report_stage.
  - eapply NoDup_fmap_1, NoDup_report_stage_keys.
  - apply NoDup_Permutation.
    + eapply NoDup_fmap_1, NoDup_report_stage_keys.
    + eapply NoDup_fmap_1, NoDup_report_stage_keys.
    + intros c. by rewrite !elem_of_report_stage.
Qed.

(** ** Collecting: failures of the cluster *)

(** One namespace, whatever its calls return: the calls in their
    order, then the images into the set of the namespace. *)
Lemma collect_namespace_calls (client : Client) (ns : string)
    (acc : gmap string (gmap string Z)) :
  collect_namespace client ns acc =
  (specs ← list_workloads client ns;
   Ok (<[ns := add_images (images_of specs) (default ∅ (acc !! ns))]> acc)).
Proof.
  unfold collect_namespace, list_workloads.
  set (acc0 := match acc !! ns with
               | Some _ => acc
               | None => <[ns:=∅]> acc
               end).
  assert (acc0 !! ns = Some (default ∅ (acc !! ns)) ∧
          ∀ m, <[ns := m]> acc0 = <[ns := m]> acc) as [Hacc0 Hins].
  { subst acc0. destruct (acc !! ns) as [m0|] eqn:Hns; [done|].
    split; [apply lookup_insert_eq|]. intros m. apply insert_insert_eq. }
  unfold collectFromDeployments, collectFromStatefulSets, collectFromDaemonSets.
  destruct (Deployments_List client ns) as [deploys|e|p];
    cbn [mbind outcome_mbind outcome_bind]; [|done..].
  rewrite (collect_specs_set _ _ _ _ Hacc0). cbn [mbind outcome_mbind outcome_bind].
  destruct (StatefulSets_List client ns) as [sets|e|p];
    cbn [mbind outcome_mbind outcome_bind]; [|done..].
  rewrite (collect_specs_set _ _ _ _ (lookup_insert_eq _ _ _)).
  cbn [mbind outcome_mbind outcome_bind].
  destruct (DaemonSets_List client ns) as [daemons|e|p];
    cbn [mbind outcome_mbind outcome_bind]; [|done..].
  rewrite (collect_specs_set _ _ _ _ (lookup_insert_eq _ _ _)).
  by rewrite !insert_insert_eq, Hins, !images_of_app, !add_images_app.
Qed.

Lemma collect_namespaces_returns (client : Client) (nss : list string) :
  ∀ acc0, (∀ n, n ∈ nss → ∃ specs, list_workloads client n = Ok specs) →
    ∃ acc, forM (collect_namespace client) nss acc0 = Ok acc.
Proof.
  induction nss as [|ns nss IH]; intros acc0 Hall; [by eexists|].
  destruct (Hall ns) as [specs Hspecs]; [left|].
  rewrite forM_cons, collect_namespace_calls, Hspecs.
  cbn [mbind outcome_mbind outcome_bind]. apply IH. intros n Hn. apply Hall. by right.
Qed.

(** A panic of the loop is a panic of a call: the store of
    [collectImages] always finds the set of the namespace. *)
Lemma collect_namespaces_panic (client : Client) (nss : list string) :
  ∀ acc0 p, forM (collect_namespace client) nss acc0 = Panic p →
    ∃ ns, ns ∈ nss ∧ list_workloads client ns = Panic p.
Proof.
  induction nss as [|ns nss IH]; intros acc0 p; [done|].
  rewrite forM_cons, collect_namespace_calls.
  destruct (list_workloads client ns) as [specs|e|p'] eqn:Hns;
    cbn [mbind outcome_mbind outcome_bind]; [|done|].
  - intros (n & Hn & Hp)%IH. exists n. split; [by right|done].
  - intros [= ->]. exists ns. split; [left|done].
Qed.

Section CollectFailures.
Context `{order : MapOrder}.

(** X6. [CollectNamespaceImages] fails fast and gives no partial
    result: the error of the namespace list, or the error of the first
    list call that fails (namespaces in their order; Deployments, then
    StatefulSets, then DaemonSets), whatever the later namespaces
    hold.  It only panics if a call of the client does: the stores of
    [collectImages] never meet a nil map. *)
Theorem CollectNamespaceImages_fails_fast (client : Client) :
  (∀ e, Namespaces_List client = Error e → CollectNamespaceImages client = Error e) ∧
  (∀ pre ns post e,
     Namespaces_List client = Ok (pre ++ ns :: post) →
     (∀ n, n ∈ pre → ∃ specs, list_workloads client n = Ok specs) →
     list_workloads client ns = Error e →
     CollectNamespaceImages client = Error e) ∧
  (∀ p, CollectNamespaceImages client = Panic p →
        Namespaces_List client = Panic p ∨
        ∃ ns, list_workloads client ns = Panic p).
Proof.
  unfold CollectNamespaceImages. split_and!.
  - by intros e ->.
  - intros pre ns post e -> Hpre Hns. cbn [mbind outcome_mbind outcome_bind].
    rewrite forM_app.
    destruct (collect_namespaces_returns client pre ∅ Hpre) as [acc ->].
    cbn [mbind outcome_mbind outcome_bind].
    by rewrite forM_cons, collect_namespace_calls, Hns.
  - intros p. destruct (Namespaces_List client) as [nss|e|p'];
      cbn [mbind outcome_mbind outcome_bind]; [|done|].
    + destruct (forM _ _ _) as [acc|e|p'] eqn:Hloop;
        cbn [mbind outcome_mbind outcome_bind]; [done..|].
      intros [= ->]. apply collect_namespaces_panic in Hloop as (ns & _ & Hp).
      right. by exists ns.
    + intros [= ->]. by left.
Qed.
End CollectFailures.

Lemma CollectNamespaceImages_fails_fast_witness :
  Namespaces_List Fixture.failing_cluster = Ok (["ns1"] ++ "ns2" :: ["ns3"]) ∧
  list_workloads Fixture.failing_cluster "ns2" = Error "statefulsets.apps is forbidden" ∧
  @CollectNamespaceImages listed_order Fixture.failing_cluster =
    Error "statefulsets.apps is forbidden".
Proof.
  split_and!; [reflexivity..|].
  apply (proj1 (proj2 (@CollectNamespaceImages_fails_fast listed_order
                         Fixture.failing_cluster))
           ["ns1"] "ns2" ["ns3"]); [reflexivity| |reflexivity].
  intros n ->%list_elem_of_singleton. by eexists.
Defined.

(** ** Collecting: the sets and the slices *)

Lemma add_images_value (imgs : list string) :
  ∀ (m : gmap string Z) (img : string),
    add_images imgs m !! img = if decide (img ∈ imgs) then Some 1%Z else m !! img.
Proof.
  unfold add_images. induction imgs as [|i imgs IH]; intros m img; cbn [foldl].
  - destruct (decide (img ∈ [])) as [Hin|_]; [by apply elem_of_nil in Hin|done].
  - rewrite IH. destruct (decide (img ∈ imgs)) as [Hin|Hnot].
    + destruct (decide (img ∈ i :: imgs)) as [_|Hnot]; [done|].
      destruct Hnot. by right.
    + destruct (decide (i = img)) as [->|Hne].
      * rewrite lookup_insert_eq.
        destruct (decide (img ∈ img :: imgs)) as [_|Hnot']; [done|].
        destruct Hnot'. left.
      * rewrite lookup_insert_ne by done.
        destruct (decide (img ∈ i :: imgs)) as [[?|?]%elem_of_cons|_]; congruence.
Qed.

Lemma store_image_None (ns img : string) (acc : gmap string (gmap string Z)) :
  acc !! ns = None → store_image ns img acc = Panic "assignment to entry in nil map".
Proof. intros Hns. unfold store_image. by rewrite Hns. Qed.

(** X7. [collectImages] needs the set of the namespace to be there.
    With it, it returns: every image of the containers and init
    containers of the pod is in the set with the value 1, what the set
    held stays, and the other namespaces are untouched.  Without it, a
    pod with a container panics (a store into a nil map), and a pod
    without any leaves the accumulator as it is. *)
Theorem collectImages_stores (spec : PodSpec) (ns : string)
    (acc : gmap string (gmap string Z)) :
  (∀ m, acc !! ns = Some m →
     ∃ m', collectImages spec ns acc = Ok (<[ns := m']> acc) ∧
       ∀ img, m' !! img =
              if decide (img ∈ Image <$> (Containers spec ++ InitContainers spec))
              then Some 1%Z else m !! img) ∧
  (acc !! ns = None → Containers spec ++ InitContainers spec ≠ [] →
   collectImages spec ns acc = Panic "assignment to entry in nil map") ∧
  (acc !! ns = None → Containers spec ++ InitContainers spec = [] →
   collectImages spec ns acc = Ok acc).
Proof.
  split_and!.
  - intros m Hm. eexists. split; [by apply collectImages_set|].
    intros img. apply add_images_value.
  - intros Hns Hne. unfold collectImages.
    destruct (Containers spec) as [|c cs].
    + destruct (InitContainers spec) as [|c cs]; [done|].
      cbn [forM mbind outcome_mbind outcome_bind].
      by rewrite (store_image_None _ _ _ Hns).
    + cbn [forM mbind outcome_mbind outcome_bind].
      by rewrite (store_image_None _ _ _ Hns).
  - intros Hns [Hc Hi]%app_eq_nil. unfold collectImages. by rewrite Hc, Hi.
Qed.

Lemma collectImages_stores_witness :
  ∃ m', collectImages Fixture.redis_pod "ns1" {[ "ns1" := {[ "nginx:1.25.3" := 1%Z ]} ]} =
          Ok (<["ns1" := m']> {[ "ns1" := {[ "nginx:1.25.3" := 1%Z ]} ]}) ∧
        m' !! "redis:7.2.4" = Some 1%Z ∧ m' !! "nginx:1.25.3" = Some 1%Z.
Proof.
  destruct (proj1 (collectImages_stores Fixture.redis_pod "ns1"
                     {[ "ns1" := {[ "nginx:1.25.3" := 1%Z ]} ]})
              {[ "nginx:1.25.3" := 1%Z ]} (lookup_singleton_eq _ _))
    as (m' & Hm' & Hvalues).
  exists m'. split; [exact Hm'|]. rewrite !Hvalues. split; reflexivity.
Defined.

Section CollectSlices.
Context `{order : MapOrder}.

(** What [CollectNamespaceImages] returns when the calls succeed: the
    slices of sets that hold the images of the workloads. *)
Lemma CollectNamespaceImages_slices (client : Client) (nss : list string) :
  Namespaces_List client = Ok nss →
  (∀ ns, ns ∈ nss → is_Some (workloads client ns)) →
  ∃ acc, CollectNamespaceImages client = Ok (to_slices acc) ∧
    ∀ ns,
      (ns ∈ nss → ∃ specs m,
         workloads client ns = Some specs ∧ acc !! ns = Some m ∧
         ∀ img, is_Some (m !! img) ↔ img ∈ images_of specs) ∧
      (ns ∉ nss → acc !! ns = None).
Proof.
  intros Hnss Hall. unfold CollectNamespaceImages. rewrite Hnss.
  cbn [mbind outcome_mbind outcome_bind].
  destruct (collect_namespaces_sets client nss ∅ Hall) as (acc & -> & Hsets).
  cbn [mbind outcome_mbind outcome_bind]. exists acc. split; [done|].
  intros ns. destruct (Hsets ns) as [Hin Hout]. split.
  - intros Hns. destruct (Hin Hns) as (specs & m & Hspecs & Hm & Hkeys).
    exists specs, m. split_and!; [done..|]. intros img.
    rewrite Hkeys, lookup_empty. simpl. rewrite lookup_empty.
    split; [|auto]. intros [?|[? ?]]; done.
  - intros Hns. by rewrite (Hout Hns), lookup_empty.
Qed.

Lemma range_nil_iff {V : Type} (site : RangeSite) (m : gmap string V) :
  range site m = [] ↔ ∀ k, m !! k = None.
Proof.
  split.
  - intros Hnil k. destruct (m !! k) as [v|] eqn:Hk; [|done].
    apply (elem_of_range site) in Hk. rewrite Hnil in Hk. by apply elem_of_nil in Hk.
  - intros Hnone. destruct (range site m) as [|[k v] l] eqn:Hrange; [done|].
    assert ((k, v) ∈ range site m) as Hin by (rewrite Hrange; left).
    apply elem_of_range in Hin. by rewrite Hnone in Hin.
Qed.

(** X8. The result of [CollectNamespaceImages] has a key only for a
    listed namespace whose workloads have at least one container
    image, and never maps a namespace to an empty slice: a namespace
    without workloads is absent from the result. *)
Theorem CollectNamespaceImages_keys (client : Client) (nss : list string) :
  Namespaces_List client = Ok nss →
  (∀ ns, ns ∈ nss → is_Some (workloads client ns)) →
  ∃ result, CollectNamespaceImages client = Ok result ∧
    ∀ ns,
      (is_Some (result !! ns) ↔
       ns ∈ nss ∧ ∃ specs, workloads client ns = Some specs ∧ images_of specs ≠ []) ∧
      result !! ns ≠ Some [].
Proof.
  intros Hnss Hall.
  destruct (CollectNamespaceImages_slices client nss Hnss Hall) as (acc & Hacc & Hsets).
  exists (to_slices acc). split; [done|]. intros ns. rewrite to_slices_lookup.
  destruct (Hsets ns) as [Hin Hout]. destruct (decide (ns ∈ nss)) as [Hns|Hns].
  - destruct (Hin Hns) as (specs & m & Hspecs & Hm & Hkeys). rewrite Hm.
    destruct (range (range_acc_images ns) m) as [|kv kvs] eqn:Hrange.
    + split; [|done]. split; [by intros [? ?]|].
      intros (_ & specs' & Hspecs' & Hne). exfalso. apply Hne.
      assert (specs' = specs) as -> by congruence.
      destruct (images_of specs) as [|img imgs] eqn:Himgs; [done|].
      assert (is_Some (m !! img)) as [z Hz] by (apply Hkeys; left).
      apply (proj1 (range_nil_iff _ m)) with (k := img) in Hrange. congruence.
    + split; [|done]. split; [|by eexists].
      intros _. split; [done|]. exists specs. split; [done|]. intros Hnil.
      assert (kv ∈ range (range_acc_images ns) m) as Hkv by (rewrite Hrange; left).
      destruct kv as [k v]. apply elem_of_range in Hkv.
      assert (k ∈ images_of specs) as Hk by (apply Hkeys; by eexists).
      rewrite Hnil in Hk. by apply elem_of_nil in Hk.
  - rewrite (Hout Hns). split; [|done]. split; [by intros [? ?]|by intros [? _]].
Qed.
End CollectSlices.

Lemma CollectNamespaceImages_keys_witness :
  Namespaces_List Fixture.sparse_cluster = Ok ["ns1"; "idle"] ∧
  ∃ result, @CollectNamespaceImages listed_order Fixture.sparse_cluster = Ok result ∧
    is_Some (result !! "ns1") ∧ result !! "idle" = None.
Proof.
  split; [reflexivity|].
  destruct (@CollectNamespaceImages_keys listed_order Fixture.sparse_cluster
              ["ns1"; "idle"] eq_refl) as (result & Hresult & Hkeys).
  { intros ns _. unfold workloads. simpl. destruct (decide _); by eexists. }
  exists result. split; [exact Hresult|].
  vm_compute in Hresult. injection Hresult as <-. split; [by eexists|reflexivity].
Defined.

(** ** [main], from the cluster to the report *)

Section EndToEnd.
Context `{regexp : RegexpPkg} `{os : OS} `{yaml : YamlPkg} `{order : MapOrder}.

Lemma to_slices_elem (acc : gmap string (gmap string Z)) (ns img : string)
    (images : list string) :
  to_slices acc !! ns = Some images →
  (img ∈ images ↔ ∃ m, acc !! ns = Some m ∧ is_Some (m !! img)).
Proof.
  rewrite to_slices_lookup. destruct (acc !! ns) as [m|] eqn:Hm; [|done].
  intros Himages.
  assert (images = (range (range_acc_images ns) m).*1) as ->
    by (destruct (range _ _); congruence).
  rewrite range_keys. split; [by exists m|]. by intros (m' & [= <-] & ?).
Qed.

Lemma to_slices_some (acc : gmap string (gmap string Z)) (ns img : string)
    (m : gmap string Z) :
  acc !! ns = Some m → is_Some (m !! img) →
  ∃ images, to_slices acc !! ns = Some images ∧ img ∈ images.
Proof.
  intros Hm Himg. rewrite to_slices_lookup, Hm.
  assert (img ∈ (range (range_acc_images ns) m).*1) as Hin by by apply range_keys.
  destruct (range (range_acc_images ns) m) as [|kv kvs] eqn:Hrange.
  - by apply elem_of_nil in Hin.
  - by eexists.
Qed.

(** X9. When the rules load, the expression of [main] compiles (with
    its three groups) and the calls that list the cluster succeed, the
    run comes to the call for the version of the server.  If that call
    returns, or fails with an error, [main] returns a report with the
    resolved cluster name and version, and its components are sound and
    complete for the cluster: each component stems from an image of a
    container of a workload of its namespace and a rule that resolved a
    version on it (the application in [Version], that version in
    [ChartName]); and each application that a rule resolves on such an
    image has a component for its namespace.  If the call panics,
    nothing recovers and [main] ends in that panic, without a report. *)
Theorem main_reports_the_cluster (clientset : Client) (RULES_FILE : string)
    (rules : list Rule) (re : Regexp) (nss : list string) :
  LoadRules RULES_FILE = Ok rules →
  Compile versionRe_pattern = inl re → NumSubexp re = 3 →
  Namespaces_List clientset = Ok nss →
  (∀ ns, ns ∈ nss → is_Some (workloads clientset ns)) →
  (∀ kubeVersion,
     ServerVersion clientset = Ok kubeVersion ∨
     (kubeVersion = "unknown-version" ∧ ∃ e, ServerVersion clientset = Error e) →
     ∃ info, main clientset RULES_FILE = Ok info ∧
       ClusterName info = getClusterName ∧
       KubeVersion info = kubeVersion ∧
       (∀ c, c ∈ HelmCharts info →
          ∃ specs img rule,
            Namespace c ∈ nss ∧ workloads clientset (Namespace c) = Some specs ∧
            img ∈ images_of specs ∧ rule ∈ rules ∧
            ApplicationName rule = Version c ∧ resolves re img rule (ChartName c)) ∧
       (∀ ns specs img rule v,
          ns ∈ nss → workloads clientset ns = Some specs → img ∈ images_of specs →
          rule ∈ rules → resolves re img rule v →
          ∃ c, c ∈ HelmCharts info ∧ Namespace c = ns ∧
               Version c = ApplicationName rule)) ∧
  (∀ p, ServerVersion clientset = Panic p → main clientset RULES_FILE = Panic p).
Proof.
  intros Hrules Hre Hgroups Hnss Hall.
  destruct (CollectNamespaceImages_slices clientset nss Hnss Hall)
    as (acc & Hacc & Hsets).
  destruct (match_stage_entries re Hgroups rules (to_slices acc))
    as (u & Hu & Hentries).
  assert (main clientset RULES_FILE =
          kubeVersion ← getKubernetesVersion clientset;
          Ok {| ClusterName := getClusterName;
                KubeVersion := kubeVersion;
                HelmCharts := report_stage u |}) as Hmain.
  { unfold main. rewrite Hrules. unfold fatal, MustCompile. rewrite Hre.
    by rewrite !bind_Ok, Hacc, bind_Ok, Hu, bind_Ok. }
  split; [|by intros p Hp; rewrite Hmain; unfold getKubernetesVersion; rewrite Hp].
  intros kubeVersion Hversion.
  assert (getKubernetesVersion clientset = Ok kubeVersion) as Hkube.
  { unfold getKubernetesVersion.
    by destruct Hversion as [->|(-> & e & ->)]. }
  eexists. split; [by rewrite Hmain, Hkube, bind_Ok|].
  cbn [ClusterName KubeVersion HelmCharts]. split_and!; [done..| |].
  - intros c Hc%elem_of_report_stage. rewrite Hentries in Hc.
    destruct (to_slices acc !! Namespace c) as [images|] eqn:Himages; [|done].
    simpl in Hc. apply last_hit_elem, list_elem_of_bind in Hc as (img & Hhit & Himg).
    apply list_elem_of_omap in Hhit as (rule & Hrule & Hhit).
    apply (hit_resolves re) in Hhit as [Hname Hres].
    apply (to_slices_elem _ _ img) in Himages.
    apply Himages in Himg as (m & Hm & Hkey).
    destruct (Hsets (Namespace c)) as [Hin Hout].
    destruct (decide (Namespace c ∈ nss)) as [Hns|Hns]; [|by rewrite (Hout Hns) in Hm].
    destruct (Hin Hns) as (specs & m' & Hspecs & Hm' & Hkeys).
    assert (m' = m) as -> by congruence.
    exists specs, img, rule. split_and!; [done..| |done|done|done]. by apply Hkeys.
  - intros ns specs img rule v Hns Hspecs Himg Hrule Hres.
    destruct (Hsets ns) as [Hin _].
    destruct (Hin Hns) as (specs' & m & Hspecs' & Hm & Hkeys).
    assert (specs' = specs) as -> by congruence.
    destruct (to_slices_some acc ns img m Hm) as (images & Himages & Hin');
      [by apply Hkeys|].
    destruct (last_hit_is_Some (ApplicationName rule) v (hits re rules images))
      as [v' Hv'].
    { apply list_elem_of_bind. exists img. split; [|done].
      apply list_elem_of_omap. exists rule. split; [done|]. by apply hit_resolves. }
    exists {| ChartName := v'; Version := ApplicationName rule; Namespace := ns |}.
    split_and!; [|done..]. apply elem_of_report_stage. simpl.
    by rewrite Hentries, Himages.
Qed.

(** X10. [main] stops at the first stage that fails and reports
    nothing: an error of [LoadRules] ends the run with the message of
    [log.Fatalf], before the cluster is asked anything; an error of
    [CollectNamespaceImages] ends it with that error.  [main] returns a
    report only if both stages returned. *)
Theorem main_stops_on_errors (clientset : Client) (RULES_FILE : string) :
  (∀ e, LoadRules RULES_FILE = Error e →
        main clientset RULES_FILE = Error ("Can't configure RULES_FILE: " +:+ e)) ∧
  (∀ rules re e,
     LoadRules RULES_FILE = Ok rules → Compile versionRe_pattern = inl re →
     CollectNamespaceImages clientset = Error e →
     main clientset RULES_FILE = Error e) ∧
  (∀ info, main clientset RULES_FILE = Ok info →
     ∃ rules imagesByNs,
       LoadRules RULES_FILE = Ok rules ∧
       CollectNamespaceImages clientset = Ok imagesByNs).
Proof.
  unfold main. split_and!.
  - by intros e ->.
  - intros rules re e -> Hre ->. unfold fatal, MustCompile. by rewrite Hre.
  - intros info. destruct (LoadRules RULES_FILE) as [rules|e|p]; [|done..].
    unfold fatal, MustCompile.
    destruct (Compile versionRe_pattern) as [re|e]; [|done].
    rewrite !bind_Ok.
    destruct (CollectNamespaceImages clientset) as [imagesByNs|e|p]; [|done..].
    intros _. by exists rules, imagesByNs.
Qed.

(** X11. The name of the cluster in the report is never empty: it is
    the value of [CLUSTER_NAME] when that is set, and ["minikube"]
    otherwise.  The version of the cluster is the one the server
    gives, and ["unknown-version"] when the call returns an error; a
    panic of the call is not turned into a version. *)
Theorem cluster_identity_defaults (clientset : Client) :
  getClusterName ≠ "" ∧
  (Getenv "CLUSTER_NAME" ≠ "" → getClusterName = Getenv "CLUSTER_NAME") ∧
  (Getenv "CLUSTER_NAME" = "" → getClusterName = "minikube") ∧
  (∀ v, ServerVersion clientset = Ok v → getKubernetesVersion clientset = Ok v) ∧
  (∀ e, ServerVersion clientset = Error e →
        getKubernetesVersion clientset = Ok "unknown-version") ∧
  (∀ p, ServerVersion clientset = Panic p →
        getKubernetesVersion clientset = Panic p).
Proof.
  unfold getClusterName, getKubernetesVersion. split_and!.
  - by destruct (decide (Getenv "CLUSTER_NAME" ≠ "")).
  - intros Hset. by rewrite decide_True.
  - intros Hunset. rewrite decide_False; [done|]. by intros Hne.
  - by intros v ->.
  - by intros e ->.
  - by intros p ->.
Qed.
End EndToEnd.

Lemma main_reports_the_cluster_witness :
  (∃ info, @main RE2.pkg Fixture.os Fixture.yaml listed_order
             Fixture.cluster "/etc/keepup/redis.yaml" = Ok info ∧
     KubeVersion info = "v1.30.0" ∧
     ∃ c, c ∈ HelmCharts info ∧ Namespace c = "ns1" ∧ Version c = "redis") ∧
  (∃ info, @main RE2.pkg Fixture.os Fixture.yaml listed_order
             Fixture.unreachable_cluster "/etc/keepup/redis.yaml" = Ok info ∧
     KubeVersion info = "unknown-version") ∧
  @main RE2.pkg Fixture.os Fixture.yaml listed_order
    Fixture.panicking_cluster "/etc/keepup/redis.yaml" =
  Panic "runtime error: invalid memory address or nil pointer dereference".
Proof.
  split_and!.
  - destruct (@main_reports_the_cluster RE2.pkg Fixture.os Fixture.yaml listed_order
                Fixture.cluster "/etc/keepup/redis.yaml" [Fixture.redis_rule] versionRe
                ["ns1"] eq_refl eq_refl eq_refl eq_refl)
      as [Hreport _].
    { intros ns _. by eexists. }
    destruct (Hreport "v1.30.0" (or_introl eq_refl))
      as (info & Hmain & _ & Hkube & _ & Hcomplete).
    exists info. split_and!; [exact Hmain|exact Hkube|].
    apply (Hcomplete "ns1" [Fixture.redis_pod; Fixture.redis_pod] "redis:7.2.4"
             Fixture.redis_rule "7.2.4").
    + left.
    + reflexivity.
    + left.
    + left.
    + split; reflexivity.
  - destruct (@main_reports_the_cluster RE2.pkg Fixture.os Fixture.yaml listed_order
                Fixture.unreachable_cluster "/etc/keepup/redis.yaml"
                [Fixture.redis_rule] versionRe ["ns1"] eq_refl eq_refl eq_refl eq_refl)
      as [Hreport _].
    { intros ns _. by eexists. }
    destruct (Hreport "unknown-version"
                (or_intror (conj eq_refl (ex_intro _ "connection refused" eq_refl))))
      as (info & Hmain & _ & Hkube & _).
    exists info. split; [exact Hmain|exact Hkube].
  - refine (proj2 (@main_reports_the_cluster RE2.pkg Fixture.os Fixture.yaml
                     listed_order Fixture.panicking_cluster "/etc/keepup/redis.yaml"
                     [Fixture.redis_rule] versionRe ["ns1"]
                     eq_refl eq_refl eq_refl eq_refl _) _ eq_refl).
    intros ns _. by eexists.
Defined.

Lemma main_stops_on_errors_witness :
  @main RE2.pkg Fixture.os Fixture.yaml listed_order
    Fixture.cluster "/etc/keepup/broken.yaml" =
  Error ("Can't configure RULES_FILE: " +:+
         "invalid version regex for nginx: error parsing regexp: missing closing ): `nginx:(\d+`") ∧
  @main RE2.pkg Fixture.os Fixture.yaml listed_order
    Fixture.failing_cluster "/etc/keepup/redis.yaml" =
  Error "statefulsets.apps is forbidden".
Proof.
  split.
  - apply (proj1 (@main_stops_on_errors RE2.pkg Fixture.os Fixture.yaml listed_order
                    Fixture.cluster "/etc/keepup/broken.yaml")).
    reflexivity.
  - apply (proj1 (proj2 (@main_stops_on_errors RE2.pkg Fixture.os Fixture.yaml
                           listed_order Fixture.failing_cluster
                           "/etc/keepup/redis.yaml"))
             [Fixture.redis_rule] versionRe); [reflexivity..|].
    vm_compute. reflexivity.
Defined.

(** ** [LoadRules]: when it returns rules *)

Section LoadRulesSuccess.
Context `{regexp : RegexpPkg} `{os : OS} `{yaml : YamlPkg}.

Lemma compiled_unique (r : DetectionRuleYaml) (rule1 rule2 : Rule) :
  compiled r rule1 → compiled r rule2 → rule1 = rule2.
Proof.
  destruct rule1, rule2. unfold compiled. simpl.
  intros (-> & Hd1 & Hv1) (-> & Hd2 & Hv2). congruence.
Qed.

Lemma Forall2_compiled_unique (l : list DetectionRuleYaml) (rules1 rules2 : list Rule) :
  Forall2 compiled l rules1 → Forall2 compiled l rules2 → rules1 = rules2.
Proof.
  intros H1. revert rules2. induction H1 as [|r rule1 l rules1 Hr _ IH];
    intros rules2 H2; inversion H2 as [|? rule2 ? rules2' Hr' H2']; subst; [done|].
  f_equal; [by eapply compiled_unique|by apply IH].
Qed.

(** X12. [LoadRules] returns a list of rules exactly when the file can
    be read, its content decodes, and every declared rule has both
    patterns compile; the list is then the declared rules, one for
    one and in their order.  Nothing is dropped, merged or reordered,
    and rules with the same application name are all kept. *)
Theorem LoadRules_success_iff (path : string) (rules : list Rule) :
  LoadRules path = Ok rules ↔
  ∃ data rf, ReadFile path = inl data ∧ Unmarshal data = inl rf ∧
             Forall2 compiled (DockerImages rf) rules.
Proof.
  unfold LoadRules. split.
  - destruct (ReadFile path) as [data|e] eqn:Hread; [|done].
    destruct (Unmarshal data) as [rf|e] eqn:Hyaml; [|done].
    destruct (LoadRules_loop (DockerImages rf) [])
      as [(rules' & -> & Hall)|(pre & bad & post & msg & _ & _ & _ & ->)]; [|done].
    intros [= <-]. by exists data, rf.
  - intros (data & rf & -> & -> & Hall).
    destruct (LoadRules_loop (DockerImages rf) [])
      as [(rules' & -> & Hall')|(pre & bad & post & msg & Hl & _ & Hbad & _)].
    + simpl. f_equal. by eapply Forall2_compiled_unique.
    + exfalso. rewrite Hl in Hall.
      apply Forall2_app_inv_l in Hall as (rules1 & rules2 & _ & Hall & _).
      inversion Hall as [|? rule ? ? Hrule _]; subst.
      by eapply compiled_not_rejected.
Qed.
End LoadRulesSuccess.

(** ** Nothing matches *)

Lemma forM_unchanged {A S} (f : A → S → outcome S) (l : list A) (s : S) :
  (∀ x, x ∈ l → f x s = Ok s) → forM f l s = Ok s.
Proof.
  induction l as [|x l IH]; intros Hf; [done|].
  rewrite forM_cons, Hf by left. cbn [mbind outcome_mbind outcome_bind].
  apply IH. intros y Hy. apply Hf. by right.
Qed.

Section NoMatch.
Context `{regexp : RegexpPkg} `{order : MapOrder}.

(** X13. When no rule's detection pattern matches any collected image
    (in particular with no rules, or no images), the matching stage
    returns the empty aggregate and the report has no component:
    [normalizeSemVer] is not even called, so this holds for any
    normalisation expression. *)
Theorem no_match_no_component (rules : list Rule) (re : Regexp)
    (imagesByNs : gmap string (list string)) :
  (∀ ns images img rule,
     imagesByNs !! ns = Some images → img ∈ images → rule ∈ rules →
     MatchString (DetectionRegex rule) img = false) →
  match_stage rules re imagesByNs = Ok ∅ ∧ report_stage ∅ = [].
Proof.
  intros Hnone. split.
  - unfold match_stage. apply forM_unchanged. intros [ns images] Hin%elem_of_range.
    unfold match_namespace. apply forM_unchanged. intros img Himg.
    unfold match_image. apply forM_unchanged. intros rule Hrule.
    unfold match_rule. by rewrite (Hnone ns images img rule).
  - unfold report_stage. by rewrite range_empty.
Qed.
End NoMatch.

Lemma no_match_no_component_witness :
  @match_stage RE2.pkg listed_order [Fixture.redis_rule] versionRe
    {[ "ns1" := ["nginx:1.25.3"; "busybox"] ]} = Ok ∅ ∧
  @report_stage listed_order ∅ = [].
Proof.
  apply (@no_match_no_component RE2.pkg listed_order).
  intros ns images img rule Hns Himg ->%list_elem_of_singleton.
  destruct (decide (ns = "ns1")) as [->|Hne].
  - rewrite lookup_singleton_eq in Hns. injection Hns as <-.
    apply elem_of_cons in Himg as [->|Himg]; [reflexivity|].
    apply list_elem_of_singleton in Himg as ->. reflexivity.
  - by rewrite lookup_singleton_ne in Hns.
Defined.

(** ** The versions of the report *)

(** A version that [normalizeSemVer] returns is three runs of digits
    with dots between them. *)
Lemma normalizeSemVer_three_runs (s v : string) :
  normalizeSemVer s versionRe = Ok (Some v) →
  ∃ d1 d2 d3,
    d1 ≠ [] ∧ all_digits d1 = true ∧ d2 ≠ [] ∧ all_digits d2 = true ∧
    d3 ≠ [] ∧ all_digits d3 = true ∧
    v = string_of_list_ascii d1 +:+ "." +:+ string_of_list_ascii d2
        +:+ "." +:+ string_of_list_ascii d3.
Proof.
  rewrite normalizeSemVer_search.
  destruct (RE2.search versionRe _) as [m|] eqn:Hs; [|done].
  apply search_leftmost in Hs as (pre & rest & _ & Hm & _).
  apply match_here_version_inv in Hm
    as (m0 & d1 & d2 & p & -> & Hne1 & Hd1 & Hne2 & Hd2 & Hp).
  cbn. intros [= <-]. destruct Hp as [->|(d3 & -> & Hne3 & Hd3)].
  - exists d1, d2, ["0"%char]. by destruct (decide _).
  - exists d1, d2, d3. by destruct (decide _).
Qed.

Section ReportVersions.
Context `{regexp : RegexpPkg} `{order : MapOrder}.
Variable re : Regexp.
Hypothesis re_version : ∀ s,
  FindStringSubmatch re s = RE2.findStringSubmatch versionRe s.

Lemma normalizeSemVer_version (s : string) :
  normalizeSemVer s re = @normalizeSemVer RE2.pkg s versionRe.
Proof. unfold normalizeSemVer. by rewrite re_version. Qed.

Lemma re_version_groups : NumSubexp re = 3.
Proof.
  pose proof (re_version "1.2") as Hm.
  apply FindStringSubmatch_length in Hm. simpl in Hm. by injection Hm as <-.
Qed.

(** X14. Whatever package compiles the patterns, whatever the rules
    and the images: when the compiled expression of [main] finds what
    [(\d+)\.(\d+)(\.\d+)?] finds, every component of the report
    carries (in [ChartName]) a version of three runs of digits with
    dots between them: no raw tag, empty string or partial version
    reaches the report. *)
Theorem report_versions_are_normalised (rules : list Rule)
    (imagesByNs : gmap string (list string)) :
  ∃ u, match_stage rules re imagesByNs = Ok u ∧
    ∀ c, c ∈ report_stage u →
      ∃ major minor patch,
        major ≠ [] ∧ all_digits major = true ∧
        minor ≠ [] ∧ all_digits minor = true ∧
        patch ≠ [] ∧ all_digits patch = true ∧
        ChartName c = string_of_list_ascii major +:+ "." +:+ string_of_list_ascii minor
                      +:+ "." +:+ string_of_list_ascii patch.
Proof.
  destruct (match_stage_entries re re_version_groups rules imagesByNs)
    as (u & Hu & Hentries).
  exists u. split; [done|]. intros c Hc%elem_of_report_stage.
  rewrite Hentries in Hc.
  destruct (imagesByNs !! Namespace c) as [images|]; [simpl in Hc|done].
  apply last_hit_elem, list_elem_of_bind in Hc as (img & Hhit & _).
  apply list_elem_of_omap in Hhit as (rule & _ & Hhit).
  apply (hit_resolves re) in Hhit as [_ [_ Hv]].
  rewrite normalizeSemVer_version in Hv.
  by eapply normalizeSemVer_three_runs.
Qed.
End ReportVersions.

Lemma report_versions_are_normalised_witness :
  (∀ s, FindStringSubmatch versionRe s = RE2.findStringSubmatch versionRe s) ∧
  ∃ u, match_stage [Fixture.redis_rule] versionRe {[ "ns1" := ["redis:7.2.4"] ]} = Ok u ∧
    ∀ c, c ∈ report_stage u →
      ∃ major minor patch,
        major ≠ [] ∧ all_digits major = true ∧
        minor ≠ [] ∧ all_digits minor = true ∧
        patch ≠ [] ∧ all_digits patch = true ∧
        ChartName c = string_of_list_ascii major +:+ "." +:+ string_of_list_ascii minor
                      +:+ "." +:+ string_of_list_ascii patch.
Proof.
  split; [reflexivity|].
  exact (@report_versions_are_normalised RE2.pkg listed_order versionRe
           (λ s, eq_refl) [Fixture.redis_rule] {[ "ns1" := ["redis:7.2.4"] ]}).
Defined.

